(** * psycopg2 [lib/extras.py]: dictionary cursors, the tuple adapter and
    logging connections, embedded in Rocq.

    The Python classes of [extras.py] are embedded shallowly: every method
    becomes a function in a state-and-exception monad over a record that
    holds the attributes of the objects involved.  Dictionaries are stdpp
    [gmap]s, Python lists are Rocq lists, and a reference to a shared
    dictionary object is an address into an explicit heap. *)

From Stdlib Require Import ZArith QArith String Ascii List.
From stdpp Require Import gmap strings list fin_maps pretty.

Local Open Scope string_scope.
Local Open Scope list_scope.
Local Open Scope Z_scope.

(** ** Python values, exceptions and the method monad *)

Inductive value : Type :=
  | VNone
  | VInt (z : Z)
  | VStr (s : string)
  | VObj (name : string).

(** The exceptions that the modelled code can raise or let through. *)
Inductive exn : Type :=
  | StopIteration
  | KeyError (key : string)
  | IndexError
  | TypeError (msg : string)
  | AttributeError (attr : string)
  | NameError (name : string)
  | ProgrammingError (msg : string)
  | BackendError (msg : string).

Inductive result (A : Type) : Type :=
  | Ok (a : A)
  | Raise (e : exn).
Arguments Ok {A} a.
Arguments Raise {A} e.

(** A method call: it always returns the (possibly mutated) state, and
    either a value or a raised exception. *)
Definition M (S A : Type) : Type := S → S * result A.

Definition ret {S A} (a : A) : M S A := λ s, (s, Ok a).
Definition raise {S A} (e : exn) : M S A := λ s, (s, Raise e).
Definition bind {S A B} (m : M S A) (k : A → M S B) : M S B :=
  λ s, match m s with
       | (s', Ok a) => k a s'
       | (s', Raise e) => (s', Raise e)
       end.
Definition get {S} : M S S := λ s, (s, Ok s).
Definition modify {S} (f : S → S) : M S unit := λ s, (f s, Ok tt).

(** [try: body finally: cleanup].  The cleanup runs whatever the body did;
    when the cleanup itself raises, its exception replaces the body's
    outcome, as in Python. *)
Definition try_finally {S A} (body : M S A) (cleanup : M S unit) : M S A :=
  λ s, match body s with
       | (s', r) =>
           match cleanup s' with
           | (s'', Ok _) => (s'', r)
           | (s'', Raise e) => (s'', Raise e)
           end
       end.

Global Instance M_ret {S} : MRet (M S) := λ A, @ret S A.
Global Instance M_bind {S} : MBind (M S) := λ A B k m, @bind S A B m k.

(** Python truthiness of the objects tested by the code. *)
Definition truthy_Z (z : Z) : bool := negb (z =? 0).
Definition truthy_list {A} (o : option (list A)) : bool :=
  match o with
  | Some (_ :: _) => true
  | _ => false
  end.
Definition truthy_str (o : option string) : bool :=
  match o with
  | Some (String _ _) => true
  | _ => false
  end.

(** ** [DictCursor] and [DictRow] *)

(** A column descriptor: [description[i][0]] is the column name. *)
Record column : Type := Column {
  col_name : string;
  col_type_code : Z
}.

(** A [DictRow] object: a list with an extra attribute [_index] that
    refers to a dictionary object (an address in the heap). *)
Record DictRow : Type := MkDictRow {
  _index : nat;
  elems : list value
}.

(** What a fetch hands to the caller: a plain tuple when the cursor has no
    row factory, a [DictRow] otherwise. *)
Inductive fetched : Type :=
  | PlainTuple (vs : list value)
  | Row (r : DictRow).

Inductive factory : Type := DictRowClass.

(** Instrumentation: which of the index-maintenance lines ran.
    [EvCheck] is the test [if self.__query_executed:] of a fetch method,
    [EvBuild a] the loop of [_build_index] filling the dictionary at [a]. *)
Inductive event : Type :=
  | EvCheck
  | EvBuild (a : nat).

(** The cursor object together with the dictionary objects it created. *)
Record state : Type := MkState {
  (* attributes of psycopg2.extensions.cursor *)
  description : option (list column);
  pending : list (list value);
  arraysize : nat;
  row_factory : option factory;
  (* attributes of DictCursor *)
  index : option nat;
  query_executed : Z;
  (* dictionary objects, by address *)
  heap : list (gmap string nat);
  (* instrumentation *)
  trace : list event
}.

Definition set_description (d : option (list column)) (s : state) : state :=
  MkState d (pending s) (arraysize s) (row_factory s) (index s)
          (query_executed s) (heap s) (trace s).
Definition set_pending (p : list (list value)) (s : state) : state :=
  MkState (description s) p (arraysize s) (row_factory s) (index s)
          (query_executed s) (heap s) (trace s).
Definition set_row_factory (f : option factory) (s : state) : state :=
  MkState (description s) (pending s) (arraysize s) f (index s)
          (query_executed s) (heap s) (trace s).
Definition set_index (a : option nat) (s : state) : state :=
  MkState (description s) (pending s) (arraysize s) (row_factory s) a
          (query_executed s) (heap s) (trace s).
Definition set_query_executed (z : Z) (s : state) : state :=
  MkState (description s) (pending s) (arraysize s) (row_factory s) (index s)
          z (heap s) (trace s).
Definition set_heap (h : list (gmap string nat)) (s : state) : state :=
  MkState (description s) (pending s) (arraysize s) (row_factory s) (index s)
          (query_executed s) h (trace s).
Definition emit (e : event) (s : state) : state :=
  MkState (description s) (pending s) (arraysize s) (row_factory s) (index s)
          (query_executed s) (heap s) (trace s ++ [e]).

(** A freshly created DictCursor: [__query_executed = 0] is the class
    attribute, [index] and [row_factory] are not set yet. *)
Definition new_cursor : state :=
  MkState None [] 1%nat None None 0 [] [].

(** *** [DictRow] *)

(** [DictRow.__init__(self, cursor)]:
    [self._index = cursor.index; self[:] = [None] * len(cursor.description)]. *)
Definition DictRow_init : M state DictRow := λ s,
  match index s with
  | None => (s, Raise (AttributeError "index"))
  | Some a =>
      match description s with
      | None => (s, Raise (TypeError "object of type 'NoneType' has no len()"))
      | Some d => (s, Ok (MkDictRow a (replicate (length d) VNone)))
      end
  end.

(** [list.__getitem__] with an integer: negative positions count from the
    end, anything out of range raises [IndexError]. *)
Definition list_getitem (l : list value) (i : Z) : result value :=
  let n := Z.of_nat (length l) in
  let j := if i <? 0 then i + n else i in
  if (j <? 0) || (n <=? j) then Raise IndexError
  else match l !! Z.to_nat j with
       | Some v => Ok v
       | None => Raise IndexError
       end.

(** The argument of [__getitem__]: an [int], or a column name. *)
Inductive key : Type :=
  | KInt (i : Z)
  | KStr (name : string).

(** [dict.__getitem__] on the dictionary object at address [a]. *)
Definition dict_getitem (h : list (gmap string nat)) (a : nat) (k : string)
  : result nat :=
  match h !! a with
  | None => Raise (AttributeError "_index")
  | Some d =>
      match d !! k with
      | Some p => Ok p
      | None => Raise (KeyError k)
      end
  end.

(** [DictRow.__getitem__(self, x)]:
    [if type(x) != int: x = self._index[x]]
    [return list.__getitem__(self, x)]. *)
Definition DictRow_getitem (h : list (gmap string nat)) (r : DictRow) (x : key)
  : result value :=
  match x with
  | KInt i => list_getitem (elems r) i
  | KStr name =>
      match dict_getitem h (_index r) name with
      | Ok p => list_getitem (elems r) (Z.of_nat p)
      | Raise e => Raise e
      end
  end.

(** [DictRow.get(self, x, default=None)]: [try: return self[x]] /
    [except: return default]. *)
Definition DictRow_get (h : list (gmap string nat)) (r : DictRow) (x : key)
    (default : value) : value :=
  match DictRow_getitem h r x with
  | Ok v => v
  | Raise _ => default
  end.

(** [dict.items()]: the pairs of the dictionary.  Python leaves the order
    of a dictionary unspecified; the model enumerates in the order of the
    map, and [keys()] and [items()] of one dictionary enumerate alike. *)
Definition dict_items (d : gmap string nat) : list (string * nat) :=
  map_to_list d.

(** The loop of [DictRow.items]:
    [for n, v in self._index.items():]
    [    res.append((n, list.__getitem__(self, v)))]. *)
Fixpoint items_loop (l : list value) (ps : list (string * nat))
  : result (list (string * value)) :=
  match ps with
  | [] => Ok []
  | (n, v) :: ps' =>
      match list_getitem l (Z.of_nat v) with
      | Raise e => Raise e
      | Ok x =>
          match items_loop l ps' with
          | Raise e => Raise e
          | Ok res => Ok ((n, x) :: res)
          end
      end
  end.

(** [DictRow.items(self)]. *)
Definition DictRow_items (h : list (gmap string nat)) (r : DictRow)
  : result (list (string * value)) :=
  match h !! _index r with
  | None => Raise (AttributeError "_index")
  | Some d => items_loop (elems r) (dict_items d)
  end.

(** [DictRow.keys(self)]: [self._index.keys()]. *)
Definition DictRow_keys (h : list (gmap string nat)) (r : DictRow)
  : result (list string) :=
  match h !! _index r with
  | None => Raise (AttributeError "_index")
  | Some d => Ok (fst <$> dict_items d)
  end.

(** [DictRow.values(self)]: [tuple(self[:])]. *)
Definition DictRow_values (r : DictRow) : list value := elems r.

(** [DictRow.has_key(self, x)]: [self._index.has_key(x)]. *)
Definition DictRow_has_key (h : list (gmap string nat)) (r : DictRow)
    (x : string) : result bool :=
  match h !! _index r with
  | None => Raise (AttributeError "_index")
  | Some d =>
      match d !! x with
      | Some _ => Ok true
      | None => Ok false
      end
  end.

(** *** The wrapped cursor primitives *)

(** What the database answers to one statement: the column descriptors
    ([None] for a statement without tabular result), the result tuples,
    and the value returned or exception raised by the primitive. *)
Record exec_outcome : Type := ExecOutcome {
  eo_description : option (list column);
  eo_rows : list (list value);
  eo_result : result value
}.

(** Modelled from the spec: [psycopg2.extensions.cursor.execute] and
    [.callproc], the execution primitives (C code outside [lib/extras.py]).
    They install the descriptors and the result set of the statement and
    return or raise what the backend answered. *)
Definition _cursor_execute (out : exec_outcome) : M state value := λ s,
  (set_pending (eo_rows out) (set_description (eo_description out) s),
   eo_result out).

Definition _cursor_callproc (out : exec_outcome) : M state value :=
  _cursor_execute out.

(** The primitive fills a row created by the factory position by position,
    for every field of the result: [row[i] = tuple[i]]. *)
Definition fill_row (n : nat) (t : list value) (l : list value) : list value :=
  foldl (λ acc i, <[i := default VNone (t !! i)]> acc) l (seq 0 n).

(** Modelled from the spec: how the primitive materialises one result
    tuple.  With a row factory it calls [row_factory(cursor)] and fills the
    object; without one it returns the tuple. *)
Definition build_row (t : list value) : M state fetched := λ s,
  match row_factory s with
  | None => (s, Ok (PlainTuple t))
  | Some DictRowClass =>
      match DictRow_init s with
      | (s', Ok r) =>
          (s', Ok (Row (MkDictRow (_index r)
                          (fill_row (length (elems r)) t (elems r)))))
      | (s', Raise e) => (s', Raise e)
      end
  end.

Fixpoint build_rows (ts : list (list value)) : M state (list fetched) :=
  match ts with
  | [] => ret []
  | t :: ts' => r ← build_row t; rs ← build_rows ts'; ret (r :: rs)
  end.

(** Modelled from the spec: the fetch primitives of
    [psycopg2.extensions.cursor].  Without a tabular result they raise;
    otherwise they consume tuples of the result set. *)
Definition no_results : exn := ProgrammingError "no results to fetch".

Definition _cursor_fetchone : M state (option fetched) := λ s,
  match description s with
  | None => (s, Raise no_results)
  | Some _ =>
      match pending s with
      | [] => (s, Ok None)
      | t :: rest => (r ← build_row t; ret (Some r)) (set_pending rest s)
      end
  end.

Definition _cursor_fetchmany (size : option nat) : M state (list fetched) := λ s,
  match description s with
  | None => (s, Raise no_results)
  | Some _ =>
      let n := default (arraysize s) size in
      build_rows (take n (pending s)) (set_pending (drop n (pending s)) s)
  end.

Definition _cursor_fetchall : M state (list fetched) := λ s,
  match description s with
  | None => (s, Raise no_results)
  | Some _ => build_rows (pending s) (set_pending [] s)
  end.

(** *** [DictCursor] *)

(** [self.index = {}]: a new dictionary object. *)
Definition new_dict : M state unit := λ s,
  (set_index (Some (length (heap s))) (set_heap (heap s ++ [∅]) s), Ok tt).

(** [DictCursor.execute]. *)
Definition DictCursor_execute (out : exec_outcome) : M state value :=
  modify (set_row_factory (Some DictRowClass));;
  new_dict;;
  modify (set_query_executed 1);;
  _cursor_execute out.

(** [DictCursor.callproc]. *)
Definition DictCursor_callproc (out : exec_outcome) : M state value :=
  modify (set_row_factory (Some DictRowClass));;
  new_dict;;
  modify (set_query_executed 1);;
  _cursor_callproc out.

(** The loop of [_build_index]:
    [for i in range(len(self.description)):]
    [    self.index[self.description[i][0]] = i],
    started at position [i] on the descriptors that remain. *)
Fixpoint index_loop (i : nat) (cols : list column) (d : gmap string nat)
  : gmap string nat :=
  match cols with
  | [] => d
  | c :: cols' => index_loop (S i) cols' (<[col_name c := i]> d)
  end.

(** [DictCursor._build_index]. *)
Definition _build_index : M state unit := λ s,
  if (query_executed s =? 1) && truthy_list (description s) then
    match index s, description s with
    | Some a, Some cols =>
        (set_query_executed 0
           (emit (EvBuild a)
              (set_heap (alter (index_loop 0 cols) a (heap s)) s)),
         Ok tt)
    | _, _ => (s, Raise (AttributeError "index"))
    end
  else (s, Ok tt).

(** The two lines shared by the fetch methods:
    [if self.__query_executed: self._build_index()]. *)
Definition check_index : M state unit := λ s,
  let s' := emit EvCheck s in
  if truthy_Z (query_executed s') then _build_index s' else (s', Ok tt).

(** [DictCursor.fetchone]. *)
Definition DictCursor_fetchone : M state (option fetched) :=
  res ← _cursor_fetchone;
  check_index;;
  ret res.

(** [DictCursor.fetchmany]. *)
Definition DictCursor_fetchmany (size : option nat) : M state (list fetched) :=
  res ← _cursor_fetchmany size;
  check_index;;
  ret res.

(** [DictCursor.fetchall]. *)
Definition DictCursor_fetchall : M state (list fetched) :=
  res ← _cursor_fetchall;
  check_index;;
  ret res.

(** [DictCursor.next]. *)
Definition DictCursor_next : M state fetched :=
  res ← _cursor_fetchone;
  match res with
  | None => raise StopIteration
  | Some r => check_index;; ret r
  end.

(** *** Programs that use a cursor *)

(** The fetch calls a caller can make. *)
Inductive fetch_op : Type :=
  | Fetchone
  | Fetchmany (size : option nat)
  | Fetchall
  | Next.

(** One fetch call, with the rows it hands to the caller. *)
Definition do_fetch (f : fetch_op) : M state (list fetched) :=
  match f with
  | Fetchone => r ← DictCursor_fetchone; ret (option_list r)
  | Fetchmany size => DictCursor_fetchmany size
  | Fetchall => DictCursor_fetchall
  | Next => r ← DictCursor_next; ret [r]
  end.

(** Any call on the cursor; the statement's outcome comes with the call. *)
Inductive call : Type :=
  | Execute (out : exec_outcome)
  | Callproc (out : exec_outcome)
  | Fetch (f : fetch_op).

Definition do_call (c : call) : M state (list fetched) :=
  match c with
  | Execute out => DictCursor_execute out;; ret []
  | Callproc out => DictCursor_callproc out;; ret []
  | Fetch f => do_fetch f
  end.

Definition rows_of (r : result (list fetched)) : list fetched :=
  match r with
  | Ok rows => rows
  | Raise _ => []
  end.

(** A caller that makes the calls [cs] one after the other, going on after
    an exception; the result is the final state and every row obtained. *)
Fixpoint run (cs : list call) (s : state) : state * list fetched :=
  match cs with
  | [] => (s, [])
  | c :: cs' =>
      let (s1, r) := do_call c s in
      let (s2, rows) := run cs' s1 in
      (s2, rows_of r ++ rows)
  end.

Definition run_fetches (fs : list fetch_op) : state → state * list fetched :=
  run (Fetch <$> fs).

(** A [for row in cursor] loop: call [next] until [StopIteration]. The
    fuel bounds the number of calls; [None] means it ran out of fuel or
    something other than [StopIteration] was raised. *)
Fixpoint iterate (fuel : nat) (s : state) : state * option (list fetched) :=
  match fuel with
  | O => (s, None)
  | S fuel' =>
      match DictCursor_next s with
      | (s1, Ok r) =>
          let (s2, o) := iterate fuel' s1 in
          (s2, (λ rows, r :: rows) <$> o)
      | (s1, Raise StopIteration) => (s1, Some [])
      | (s1, Raise _) => (s1, None)
      end
  end.

(** Number of times the index-building loop ran. *)
Definition is_build (e : event) : bool :=
  match e with
  | EvBuild _ => true
  | EvCheck => false
  end.
Definition builds (tr : list event) : nat :=
  length (List.filter is_build tr).
Definition is_check (e : event) : bool :=
  match e with
  | EvCheck => true
  | EvBuild _ => false
  end.
Definition checks (tr : list event) : nat :=
  length (List.filter is_check tr).

(** Position of the last descriptor called [name]. *)
Fixpoint last_pos (name : string) (cols : list column) : option nat :=
  match cols with
  | [] => None
  | c :: cols' =>
      match last_pos name cols' with
      | Some j => Some (S j)
      | None => if decide (col_name c = name) then Some O else None
      end
  end.

(** The dictionary that [_build_index] makes of the descriptors [cols]. *)
Definition built_index (cols : list column) : gmap string nat :=
  index_loop 0 cols ∅.

(** ** [SQL_IN] *)

(** [sep.join(l)]. *)
Fixpoint join (sep : string) (l : list string) : string :=
  match l with
  | [] => EmptyString
  | [x] => x
  | x :: l' => x +:+ sep +:+ join sep l'
  end.

Section SQL_IN.
(** The elements of the wrapped sequence, and the collaborator
    [str(_A(o).getquoted())] of [psycopg2.extensions], which gives the
    quoted literal of one element or raises. *)
Context {V : Type}.
Variable adapt_getquoted : V → result string.

(** The list comprehension [[str(_A(o).getquoted()) for o in self._seq]]:
    elements are adapted from left to right, the first exception ends it. *)
Fixpoint qobjs (seq : list V) : result (list string) :=
  match seq with
  | [] => Ok []
  | o :: seq' =>
      match adapt_getquoted o with
      | Raise e => Raise e
      | Ok q =>
          match qobjs seq' with
          | Raise e => Raise e
          | Ok qs => Ok (q :: qs)
          end
      end
  end.

(** [SQL_IN.getquoted]: ['(' + ', '.join(qobjs) + ')']. *)
Definition SQL_IN_getquoted (seq : list V) : result string :=
  match qobjs seq with
  | Raise e => Raise e
  | Ok qs => Ok ("(" +:+ join ", " qs +:+ ")")
  end.
End SQL_IN.

(** ** Logging connections and cursors *)

(** The log target given to [initialize]: an open file object (the lines
    written so far) or a [logging.Logger] (the records emitted so far). *)
Inductive sink : Type :=
  | FileObj (written : list string)
  | LoggerObj (records : list string).

(** The bound method stored in [self.log] by [initialize]. *)
Inductive log_method : Type :=
  | logtofile
  | logtologger.

Inductive connection_class : Type :=
  | LoggingConnectionClass
  | MinTimeLoggingConnectionClass.

Inductive cursor_class : Type :=
  | LoggingCursorClass
  | MinTimeLoggingCursorClass.

(** Instrumentation: calls of the wrapped primitives and of [filter]. *)
Inductive levent : Type :=
  | LvExecute (stmt : string)
  | LvCallproc (procname : string)
  | LvFilter (msg : option string).

(** A connection, the cursor the program holds, and the platform:
    the clock read by [time.time()] and [os.linesep]. *)
Record lstate : Type := MkL {
  (* the connection; an attribute that was never assigned is [None] *)
  conn_class : connection_class;
  _logobj : option sink;
  log : option log_method;
  _mintime : option Q;
  (* the cursor *)
  curs_class : cursor_class;
  query : option string;
  timestamp : option Q;
  (* the platform *)
  clock : nat → Q;
  ticks : nat;
  linesep : string;
  (* instrumentation *)
  ltrace : list levent
}.

Definition set_logobj (o : option sink) (s : lstate) : lstate :=
  MkL (conn_class s) o (log s) (_mintime s) (curs_class s) (query s)
      (timestamp s) (clock s) (ticks s) (linesep s) (ltrace s).
Definition set_log (m : option log_method) (s : lstate) : lstate :=
  MkL (conn_class s) (_logobj s) m (_mintime s) (curs_class s) (query s)
      (timestamp s) (clock s) (ticks s) (linesep s) (ltrace s).
Definition set_mintime (t : option Q) (s : lstate) : lstate :=
  MkL (conn_class s) (_logobj s) (log s) t (curs_class s) (query s)
      (timestamp s) (clock s) (ticks s) (linesep s) (ltrace s).
Definition set_cursor (c : cursor_class) (s : lstate) : lstate :=
  MkL (conn_class s) (_logobj s) (log s) (_mintime s) c None
      None (clock s) (ticks s) (linesep s) (ltrace s).
Definition set_query (q : option string) (s : lstate) : lstate :=
  MkL (conn_class s) (_logobj s) (log s) (_mintime s) (curs_class s) q
      (timestamp s) (clock s) (ticks s) (linesep s) (ltrace s).
Definition set_timestamp (t : option Q) (s : lstate) : lstate :=
  MkL (conn_class s) (_logobj s) (log s) (_mintime s) (curs_class s) (query s)
      t (clock s) (ticks s) (linesep s) (ltrace s).
Definition tick (s : lstate) : lstate :=
  MkL (conn_class s) (_logobj s) (log s) (_mintime s) (curs_class s) (query s)
      (timestamp s) (clock s) (S (ticks s)) (linesep s) (ltrace s).
Definition lemit (e : levent) (s : lstate) : lstate :=
  MkL (conn_class s) (_logobj s) (log s) (_mintime s) (curs_class s) (query s)
      (timestamp s) (clock s) (ticks s) (linesep s) (ltrace s ++ [e]).

(** A connection of class [c] on which [initialize] was never called. *)
Definition new_connection (c : connection_class) (clk : nat → Q) (nl : string)
  : lstate :=
  MkL c None None None LoggingCursorClass None None clk O nl [].

(** [time.time()]: the next reading of the clock. *)
Definition time_time : M lstate Q := λ s, (tick s, Ok (clock s (ticks s))).

(** ["%d" % t] for a number [t]: the integer part, towards zero, in
    decimal. *)
Definition truncate (t : Q) : Z := Z.quot (Qnum t) (Zpos (Qden t)).
Definition format_d (t : Q) : string := pretty (truncate t).

(** *** The wrapped primitives, as seen by the logging cursors *)

(** What the primitive does with one statement: the text left in
    [self.query], and the value returned or exception raised. *)
Record prim_outcome : Type := PrimOutcome {
  po_query : option string;
  po_result : result value
}.

(** Modelled from the spec: [psycopg2.extensions.cursor.execute] and
    [.callproc] (C code outside [lib/extras.py]) materialise the statement
    text in [self.query] and return or raise. *)
Definition prim_execute (stmt : string) (vars : value) (out : prim_outcome)
  : M lstate value := λ s,
  (set_query (po_query out) (lemit (LvExecute stmt) s), po_result out).

Definition prim_callproc (procname : string) (vars : value) (out : prim_outcome)
  : M lstate value := λ s,
  (set_query (po_query out) (lemit (LvCallproc procname) s), po_result out).

(** *** [LoggingConnection] *)

(** [LoggingConnection.initialize(self, logobj)].  The [logging] module is
    taken to be importable, so the test is the [isinstance] one. *)
Definition LoggingConnection_initialize (logobj : sink) : M lstate unit :=
  modify (set_logobj (Some logobj));;
  match logobj with
  | LoggerObj _ => modify (set_log (Some logtologger))
  | FileObj _ => modify (set_log (Some logtofile))
  end.

(** [LoggingConnection.filter(self, msg, curs)]: [return msg]. *)
Definition LoggingConnection_filter (msg : option string)
  : M lstate (option string) :=
  ret msg.

(** [MinTimeLoggingConnection.filter(self, msg, curs)]:
    [t = (time.time() - curs.timestamp) * 1000]
    [if t > self._mintime:]
    [    return msg + os.linesep + "  (execution time: %d ms)" % t]
    and [None] when the test fails. *)
Definition MinTimeLoggingConnection_filter (msg : option string)
  : M lstate (option string) :=
  now ← time_time;
  s ← get;
  match timestamp s with
  | None => raise (AttributeError "timestamp")
  | Some ts =>
      let t := ((now - ts) * 1000)%Q in
      match _mintime s with
      | None => raise (AttributeError "_mintime")
      | Some mintime =>
          if negb (Qle_bool t mintime) then
            match msg with
            | None => raise (TypeError "unsupported operand type(s) for +")
            | Some m =>
                ret (Some (m +:+ linesep s +:+
                           "  (execution time: " +:+ format_d t +:+ " ms)"))
            end
          else ret None
      end
  end.

(** [self.filter(msg, curs)]: the method of the connection's class. *)
Definition call_filter (msg : option string) : M lstate (option string) :=
  modify (lemit (LvFilter msg));;
  s ← get;
  match conn_class s with
  | LoggingConnectionClass => LoggingConnection_filter msg
  | MinTimeLoggingConnectionClass => MinTimeLoggingConnection_filter msg
  end.

(** [self._logobj.write(text)] and [self._logobj.debug(text)].  The target
    is the open file object or [Logger] that [initialize] asks for: a call
    of the method it has appends the text and returns; calling the method
    it lacks is an [AttributeError]. *)
Definition logobj_write (text : string) : M lstate unit := λ s,
  match _logobj s with
  | Some (FileObj l) => (set_logobj (Some (FileObj (l ++ [text]))) s, Ok tt)
  | Some (LoggerObj _) => (s, Raise (AttributeError "write"))
  | None => (s, Raise (AttributeError "_logobj"))
  end.

Definition logobj_debug (text : string) : M lstate unit := λ s,
  match _logobj s with
  | Some (LoggerObj l) => (set_logobj (Some (LoggerObj (l ++ [text]))) s, Ok tt)
  | Some (FileObj _) => (s, Raise (AttributeError "debug"))
  | None => (s, Raise (AttributeError "_logobj"))
  end.

(** [LoggingConnection._logtofile(self, msg, curs)]. *)
Definition _logtofile (msg : option string) : M lstate unit :=
  msg ← call_filter msg;
  match msg with
  | Some m =>
      if truthy_str msg then s ← get; logobj_write (m +:+ linesep s)
      else ret tt
  | None => ret tt
  end.

(** [LoggingConnection._logtologger(self, msg, curs)]. *)
Definition _logtologger (msg : option string) : M lstate unit :=
  msg ← call_filter msg;
  match msg with
  | Some m => if truthy_str msg then logobj_debug m else ret tt
  | None => ret tt
  end.

(** [self.connection.log(msg, curs)]: the method bound by [initialize]. *)
Definition connection_log (msg : option string) : M lstate unit :=
  s ← get;
  match log s with
  | None => raise (AttributeError "log")
  | Some logtofile => _logtofile msg
  | Some logtologger => _logtologger msg
  end.

Definition not_initialized : exn :=
  ProgrammingError "LoggingConnection object has not been initialize()d".

(** [LoggingConnection._check(self)]. *)
Definition _check : M lstate unit := λ s,
  match _logobj s with
  | None => (s, Raise not_initialized)
  | Some _ => (s, Ok tt)
  end.

(** [LoggingConnection.cursor(self)]: the program now holds a new
    [LoggingCursor]. *)
Definition LoggingConnection_cursor : M lstate unit :=
  _check;;
  modify (set_cursor LoggingCursorClass).

(** *** [LoggingCursor] *)

(** [LoggingCursor.execute]. *)
Definition LoggingCursor_execute (stmt : string) (vars : value)
    (out : prim_outcome) : M lstate value :=
  try_finally (prim_execute stmt vars out)
              (s ← get; connection_log (query s)).

(** [LoggingCursor.callproc]. *)
Definition LoggingCursor_callproc (procname : string) (vars : value)
    (out : prim_outcome) : M lstate value :=
  try_finally (prim_callproc procname vars out)
              (s ← get; connection_log (query s)).

(** *** [MinTimeLoggingConnection] and [MinTimeLoggingCursor] *)

(** [MinTimeLoggingConnection.initialize(self, logobj, mintime=0)]. *)
Definition MinTimeLoggingConnection_initialize (logobj : sink) (mintime : Q)
  : M lstate unit :=
  LoggingConnection_initialize logobj;;
  modify (set_mintime (Some mintime)).

(** [MinTimeLoggingConnection.cursor(self)]. *)
Definition MinTimeLoggingConnection_cursor : M lstate unit :=
  _check;;
  modify (set_cursor MinTimeLoggingCursorClass).

(** [MinTimeLoggingCursor.execute]. *)
Definition MinTimeLoggingCursor_execute (stmt : string) (vars : value)
    (out : prim_outcome) : M lstate value :=
  now ← time_time;
  modify (set_timestamp (Some now));;
  LoggingCursor_execute stmt vars out.

(** Name lookup in the body of a method of [extras.py]: the locals, then
    the names bound at module level, then the builtins of Python 2. *)
Definition module_globals : list string :=
  ["os"; "time"; "logging"; "_cursor"; "_connection"; "_RA"; "_A";
   "DictConnection"; "DictCursor"; "DictRow"; "SQL_IN"; "LoggingConnection";
   "LoggingCursor"; "MinTimeLoggingConnection"; "MinTimeLoggingCursor";
   "__name__"; "__doc__"; "__file__"; "__builtins__"].

Definition builtins : list string :=
  ["ArithmeticError"; "AssertionError"; "AttributeError";
   "DeprecationWarning"; "EOFError"; "Ellipsis"; "EnvironmentError";
   "Exception"; "False"; "FloatingPointError"; "FutureWarning"; "IOError";
   "ImportError"; "IndentationError"; "IndexError"; "KeyError";
   "KeyboardInterrupt"; "LookupError"; "MemoryError"; "NameError"; "None";
   "NotImplemented"; "NotImplementedError"; "OSError"; "OverflowError";
   "OverflowWarning"; "PendingDeprecationWarning"; "ReferenceError";
   "RuntimeError"; "RuntimeWarning"; "StandardError"; "StopIteration";
   "SyntaxError"; "SyntaxWarning"; "SystemError"; "SystemExit"; "TabError";
   "True"; "TypeError"; "UnboundLocalError"; "UnicodeDecodeError";
   "UnicodeEncodeError"; "UnicodeError"; "UnicodeTranslateError";
   "UserWarning"; "ValueError"; "Warning"; "ZeroDivisionError";
   "__debug__"; "__import__"; "abs"; "apply"; "basestring"; "bool";
   "buffer"; "callable"; "chr"; "classmethod"; "cmp"; "coerce"; "compile";
   "complex"; "copyright"; "credits"; "delattr"; "dict"; "dir"; "divmod";
   "enumerate"; "eval"; "execfile"; "exit"; "file"; "filter"; "float";
   "frozenset"; "getattr"; "globals"; "hasattr"; "hash"; "help"; "hex";
   "id"; "input"; "int"; "intern"; "isinstance"; "issubclass"; "iter";
   "len"; "license"; "list"; "locals"; "long"; "map"; "max"; "min";
   "object"; "oct"; "open"; "ord"; "pow"; "property"; "quit"; "range";
   "raw_input"; "reduce"; "reload"; "repr"; "reversed"; "round"; "set";
   "setattr"; "slice"; "sorted"; "staticmethod"; "str"; "sum"; "super";
   "tuple"; "type"; "unichr"; "unicode"; "vars"; "xrange"; "zip"].

Definition bound_in (names : list string) (name : string) : bool :=
  existsb (String.eqb name) names.

Fixpoint assoc (name : string) (locals : list (string * value))
  : option value :=
  match locals with
  | [] => None
  | (n, v) :: locals' => if String.eqb name n then Some v else assoc name locals'
  end.

Definition load_name {S} (locals : list (string * value)) (name : string)
  : M S value :=
  match assoc name locals with
  | Some v => ret v
  | None =>
      if bound_in module_globals name || bound_in builtins name
      then ret (VObj name)
      else raise (NameError name)
  end.

(** [MinTimeLoggingCursor.callproc(self, procname, vars=None)]:
    [self.timestamp = time.time()]
    [return LoggingCursor.execute(self, procname, var)]. *)
Definition MinTimeLoggingCursor_callproc (procname : string) (vars : value)
    (out : prim_outcome) : M lstate value :=
  let locals := [("self", VObj "self"); ("procname", VStr procname);
                 ("vars", vars)] in
  now ← time_time;
  modify (set_timestamp (Some now));;
  arg1 ← load_name locals "procname";
  arg2 ← load_name locals "var";
  match arg1 with
  | VStr stmt => LoggingCursor_execute stmt arg2 out
  | _ => raise (TypeError "argument 1 must be a string")
  end.

(** *** Programs that use a logging connection *)

(** [conn.initialize(logobj)], resp. [conn.initialize(logobj, mintime)],
    by the class of the connection. *)
Definition connection_initialize (logobj : sink) (mintime : Q)
  : M lstate unit := λ s,
  match conn_class s with
  | LoggingConnectionClass => LoggingConnection_initialize logobj s
  | MinTimeLoggingConnectionClass =>
      MinTimeLoggingConnection_initialize logobj mintime s
  end.

(** [conn.cursor()], by the class of the connection. *)
Definition connection_cursor : M lstate unit := λ s,
  match conn_class s with
  | LoggingConnectionClass => LoggingConnection_cursor s
  | MinTimeLoggingConnectionClass => MinTimeLoggingConnection_cursor s
  end.

(** The cursor operations that log. *)
Inductive cursor_call : Type :=
  | CExecute (stmt : string) (vars : value) (out : prim_outcome)
  | CCallproc (procname : string) (vars : value) (out : prim_outcome).

(** [cur.execute(...)] and [cur.callproc(...)], by the class of the cursor. *)
Definition cursor_do (c : cursor_call) : M lstate value := λ s,
  match curs_class s, c with
  | LoggingCursorClass, CExecute stmt vars out =>
      LoggingCursor_execute stmt vars out s
  | LoggingCursorClass, CCallproc procname vars out =>
      LoggingCursor_callproc procname vars out s
  | MinTimeLoggingCursorClass, CExecute stmt vars out =>
      MinTimeLoggingCursor_execute stmt vars out s
  | MinTimeLoggingCursorClass, CCallproc procname vars out =>
      MinTimeLoggingCursor_callproc procname vars out s
  end.

(** [cur = conn.cursor()] followed by one operation on [cur]. *)
Definition use_cursor (c : cursor_call) : M lstate value :=
  connection_cursor;;
  cursor_do c.

(** What the log target holds. *)
Definition sink_entries (s : lstate) : list string :=
  match _logobj s with
  | Some (FileObj l) => l
  | Some (LoggerObj l) => l
  | None => []
  end.


(** ** Invariants used in the proofs *)

(** What is known of a row when the primitive hands it over: it refers to
    the dictionary that is the cursor's [index] at that moment and has one
    position per descriptor. *)
Definition good_row (s : state) (x : fetched) : Prop :=
  match x with
  | PlainTuple _ => row_factory s = None
  | Row dr =>
      index s = Some (_index dr) ∧
      ∃ cols, description s = Some cols ∧ length (elems dr) = length cols
  end.

(** The attributes that no fetch touches. *)
Definition same_cursor (s s' : state) : Prop :=
  description s' = description s ∧ index s' = index s ∧
  row_factory s' = row_factory s ∧ arraysize s' = arraysize s ∧
  length (heap s') = length (heap s).

(** What one fetch can do to the index: nothing, or build it. *)
Inductive index_effect (s s' : state) : Prop :=
  | effect_none :
      query_executed s' = query_executed s →
      heap s' = heap s →
      builds (trace s') = builds (trace s) →
      index_effect s s'
  | effect_build (a : nat) (cols : list column) :
      query_executed s = 1 →
      index s = Some a →
      description s = Some cols →
      cols ≠ [] →
      query_executed s' = 0 →
      heap s' = alter (index_loop 0 cols) a (heap s) →
      builds (trace s') = S (builds (trace s)) →
      index_effect s s'.

(** No build is pending: the flag is not [1], or there are no descriptors. *)
Definition settled (s : state) : Prop :=
  query_executed s ≠ 1 ∨ truthy_list (description s) = false.

(** The cursor after [execute] produced the descriptors [cols], with [a]
    the dictionary created by that [execute]. *)
Definition executed (cols : list column) (a : nat) (s : state) : Prop :=
  description s = Some cols ∧ index s = Some a ∧
  row_factory s = Some DictRowClass.
Definition build_pending (a : nat) (s : state) : Prop :=
  query_executed s = 1 ∧ heap s !! a = Some ∅.
Definition ready (cols : list column) (a : nat) (s : state) : Prop :=
  heap s !! a = Some (built_index cols) ∧
  (query_executed s = 0 ∨ (query_executed s = 1 ∧ cols = [])).

(** A row of the execution that made the dictionary [a] of [cols]. *)
Definition row_of (cols : list column) (a : nat) (x : fetched) : Prop :=
  ∃ dr, x = Row dr ∧ _index dr = a ∧ length (elems dr) = length cols.

(** The dictionary referenced by the cursor exists. *)
Definition wf_state (s : state) : Prop :=
  ∀ a, index s = Some a → (a < length (heap s))%nat.

(** The dictionary at [a] exists and nothing will write to it until the
    next [execute]. *)
Definition stable (a : nat) (s : state) : Prop :=
  (a < length (heap s))%nat ∧ wf_state s ∧ (index s = Some a → settled s).

(** The connection was set up by [initialize]: the log method matches the
    kind of log target. *)
Definition initialized (s : lstate) : Prop :=
  match _logobj s, log s with
  | Some (FileObj _), Some logtofile => True
  | Some (LoggerObj _), Some logtologger => True
  | _, _ => False
  end.

(** What the base [filter] lets through to the log target for [msg]. *)
Definition base_log_entries (s : lstate) (msg : option string) : list string :=
  match msg with
  | Some m =>
      if truthy_str msg then
        match log s with
        | Some logtofile => [m +:+ linesep s]
        | Some logtologger => [m]
        | None => []
        end
      else []
  | None => []
  end.

(** The message of the timed [filter] for the statement [q] after [t] ms,
    and the entry that reaches the log target. *)
Definition timed_message (s : lstate) (q : string) (t : Q) : string :=
  q +:+ linesep s +:+ "  (execution time: " +:+ format_d t +:+ " ms)".
Definition timed_entry (s : lstate) (q : string) (t : Q) : string :=
  match log s with
  | Some logtofile => timed_message s q t +:+ linesep s
  | _ => timed_message s q t
  end.

(** The outcome, statement text and primitive of a cursor operation. *)
Definition outcome_of (c : cursor_call) : result value :=
  match c with
  | CExecute _ _ out => po_result out
  | CCallproc _ _ out => po_result out
  end.
Definition query_of (c : cursor_call) : option string :=
  match c with
  | CExecute _ _ out => po_query out
  | CCallproc _ _ out => po_query out
  end.
Definition prim_event (c : cursor_call) : levent :=
  match c with
  | CExecute stmt _ _ => LvExecute stmt
  | CCallproc procname _ _ => LvCallproc procname
  end.

(** ** Sample executions and connections *)

(** A statement with two columns and two result tuples, on a new cursor. *)
Definition two_columns : list column := [Column "id" 23; Column "name" 25].
Definition select_two : exec_outcome :=
  ExecOutcome (Some two_columns)
              [[VInt 1; VStr "a"]; [VInt 2; VStr "b"]] (Ok VNone).
Definition index_two : gmap string nat :=
  <["name" := 1%nat]> (<["id" := 0%nat]> ∅).
Definition after_select_two : state :=
  MkState (Some two_columns) [] 1%nat (Some DictRowClass) (Some 0%nat) 0
          [index_two] [EvCheck; EvBuild 0%nat].
Definition rows_two : list fetched :=
  [Row (MkDictRow 0 [VInt 1; VStr "a"]); Row (MkDictRow 0 [VInt 2; VStr "b"])].

(** The same statement, fetched with [fetchmany(1)] twice. *)
Definition after_first_fetchmany : state :=
  MkState (Some two_columns) [[VInt 2; VStr "b"]] 1%nat (Some DictRowClass)
          (Some 0%nat) 0 [index_two] [EvCheck; EvBuild 0%nat].
Definition after_second_fetchmany : state :=
  MkState (Some two_columns) [] 1%nat (Some DictRowClass)
          (Some 0%nat) 0 [index_two] [EvCheck; EvBuild 0%nat; EvCheck].
Definition first_row : fetched := Row (MkDictRow 0 [VInt 1; VStr "a"]).
Definition second_row : fetched := Row (MkDictRow 0 [VInt 2; VStr "b"]).

(** A second statement whose columns differ in name, count and order. *)
Definition three_columns : list column :=
  [Column "name" 25; Column "n" 20; Column "id" 23].
Definition select_three : exec_outcome :=
  ExecOutcome (Some three_columns) [[VStr "z"; VInt 7; VInt 9]] (Ok VNone).
Definition index_three : gmap string nat :=
  <["id" := 2%nat]> (<["n" := 1%nat]> (<["name" := 0%nat]> ∅)).
Definition after_select_three : state :=
  MkState (Some three_columns) [] 1%nat (Some DictRowClass) (Some 1%nat) 0
          [index_two; index_three]
          [EvCheck; EvBuild 0%nat; EvCheck; EvBuild 1%nat].
Definition third_row : fetched := Row (MkDictRow 1 [VStr "z"; VInt 7; VInt 9]).

(** A statement with the column name [id] twice. *)
Definition dup_columns : list column :=
  [Column "id" 23; Column "x" 25; Column "id" 20].
Definition select_dup : exec_outcome :=
  ExecOutcome (Some dup_columns) [[VInt 1; VStr "a"; VInt 5]] (Ok VNone).
Definition index_dup : gmap string nat :=
  <["id" := 2%nat]> (<["x" := 1%nat]> (<["id" := 0%nat]> ∅)).
Definition after_select_dup : state :=
  MkState (Some dup_columns) [] 1%nat (Some DictRowClass) (Some 0%nat) 0
          [index_dup] [EvCheck; EvBuild 0%nat].
Definition dup_row : fetched := Row (MkDictRow 0 [VInt 1; VStr "a"; VInt 5]).

(** A clock that shows 10 s at the first reading and 10.15 s afterwards,
    the POSIX line separator, and connections logging to a file. *)
Definition clock_150ms (n : nat) : Q :=
  match n with
  | O => 10
  | _ => 1015 # 100
  end.
Definition posix_linesep : string := String "010"%char EmptyString.
Definition file_connection : lstate :=
  (LoggingConnection_cursor
     (LoggingConnection_initialize (FileObj [])
        (new_connection LoggingConnectionClass clock_150ms posix_linesep)).1).1.
Definition failing_statement : prim_outcome :=
  PrimOutcome (Some "SELECT 1/0") (Raise (BackendError "division by zero")).

(** Connections with the timed filter: thresholds of 100 ms and 200 ms. *)
Definition timed_connection (mintime : Q) : lstate :=
  (MinTimeLoggingConnection_cursor
     (MinTimeLoggingConnection_initialize (FileObj []) mintime
        (new_connection MinTimeLoggingConnectionClass clock_150ms
                        posix_linesep)).1).1.
Definition select_one : prim_outcome := PrimOutcome (Some "SELECT 1") (Ok VNone).

(** A statement with two columns and no result tuple. *)
Definition select_none : exec_outcome :=
  ExecOutcome (Some two_columns) [] (Ok VNone).
Definition after_select_none : state :=
  MkState (Some two_columns) [] 1%nat (Some DictRowClass) (Some 0%nat) 1
          [∅] [].

(** An adaptation collaborator for integers. *)
Definition adapt_int (z : Z) : result string := Ok (pretty z).

(** ** Further programs and invariants *)

(** The row that the primitive makes of the tuple [t] for a cursor whose
    index is the dictionary at [a] and whose statement has [n] columns. *)
Definition make_row (a n : nat) (t : list value) : fetched :=
  Row (MkDictRow a (fill_row n t (replicate n VNone))).

(** The cursor's dictionary is empty while a build is pending and is the
    index of the current descriptors once the flag is cleared; a cursor
    with descriptors has the [DictRow] factory. *)
Definition index_current (s : state) : Prop :=
  (query_executed s = 0 ∨ query_executed s = 1) ∧
  (is_Some (description s) → row_factory s = Some DictRowClass ∧
                             is_Some (index s)) ∧
  ∀ a, index s = Some a →
    (a < length (heap s))%nat ∧
    ((query_executed s = 1 ∧ heap s !! a = Some ∅) ∨
     (query_executed s = 0 ∧
      ∃ cols, description s = Some cols ∧ cols ≠ [] ∧
              heap s !! a = Some (built_index cols))).

(** A caller that executes the statements one after the other on a
    [LoggingCursor], going on after an exception. *)
Fixpoint execute_all (stmts : list (string * prim_outcome)) (s : lstate)
  : lstate * list (result value) :=
  match stmts with
  | [] => (s, [])
  | (stmt, out) :: stmts' =>
      let (s1, r) := LoggingCursor_execute stmt VNone out s in
      let (s2, rs) := execute_all stmts' s1 in
      (s2, r :: rs)
  end.

(** The texts that the statements leave to be logged by the base filter. *)
Definition logged_texts (s : lstate) (stmts : list (string * prim_outcome))
  : list string :=
  flat_map (λ so, base_log_entries s (po_query so.2)) stmts.

(** An adaptation collaborator that knows one-digit integers only. *)
Definition adapt_small (z : Z) : result string :=
  if z <? 10 then Ok (pretty z) else Raise (ProgrammingError "can't adapt").

(** ** Proof tactics *)

Ltac unfold_M :=
  unfold mbind, M_bind, mret, M_ret, bind, ret, raise, modify, get in *.

Ltac unfold_log :=
  cbv [connection_log _logtofile _logtologger call_filter
       LoggingConnection_filter MinTimeLoggingConnection_filter
       logobj_write logobj_debug time_time
       mbind M_bind mret M_ret bind ret raise get modify
       lemit tick set_logobj set_log set_mintime set_query set_timestamp
       set_cursor conn_class _logobj log _mintime curs_class query timestamp
       clock ticks linesep ltrace sink_entries initialized base_log_entries
       timed_entry timed_message truthy_str].

(** ** Properties of [DictRow] and [DictCursor] *)

Lemma fill_row_length n t l : length (fill_row n t l) = length l.
Proof.
  unfold fill_row. generalize (seq 0 n). intros idxs.
  revert l. induction idxs as [|i idxs IH]; intros l; simpl; [done|].
  rewrite IH. apply length_insert.
Qed.

Lemma good_row_pending p s x : good_row (set_pending p s) x ↔ good_row s x.
Proof. destruct x; reflexivity. Qed.

Lemma set_pending_same s : set_pending (pending s) s = s.
Proof. by destruct s. Qed.

Lemma build_row_inv t s s' r :
  build_row t s = (s', r) → s' = s ∧ ∀ x, r = Ok x → good_row s x.
Proof.
  unfold build_row, DictRow_init.
  destruct (row_factory s) as [[]|] eqn:Hf.
  - destruct (index s) as [a|] eqn:Hi.
    + destruct (description s) as [d|] eqn:Hd; intros [= <- <-];
        (split; [done|]); intros x [= <-]. simpl. split; [done|].
      exists d. split; [done|]. by rewrite fill_row_length, length_replicate.
    + intros [= <- <-]. by split.
  - intros [= <- <-]. split; [done|]. by intros x [= <-].
Qed.

Lemma build_rows_inv ts s s' r :
  build_rows ts s = (s', r) →
  s' = s ∧ ∀ rows, r = Ok rows → Forall (good_row s) rows.
Proof.
  revert s' r. induction ts as [|t ts IH]; intros s' r; simpl.
  - unfold_M. intros [= <- <-]. split; [done|]. by intros rows [= <-].
  - unfold_M. destruct (build_row t s) as [s1 [x|e]] eqn:Hb;
      apply build_row_inv in Hb as [-> Hx].
    + destruct (build_rows ts s) as [s2 [xs|e]] eqn:Hbs;
        destruct (IH _ _ eq_refl) as [-> Hxs]; intros [= <- <-];
        (split; [done|]); [|done].
      intros rows [= <-]. constructor; eauto.
    + intros [= <- <-]. by split.
Qed.

Lemma _cursor_fetchone_inv s s' r :
  _cursor_fetchone s = (s', r) →
  (∃ p, s' = set_pending p s) ∧
  (∀ x, r = Ok x → Forall (good_row s) (option_list x)) ∧
  (r = Ok None → pending s = [] ∧ s' = s) ∧
  (∀ e, r = Raise e → description s = None ∨ pending s ≠ []).
Proof.
  unfold _cursor_fetchone. destruct (description s) eqn:Hd.
  - destruct (pending s) as [|t rest] eqn:Hp.
    + intros [= <- <-]. split; [exists []; by rewrite <- Hp, set_pending_same|].
      split; [by intros x [= <-]; constructor|]. by split.
    + unfold_M. destruct (build_row t (set_pending rest s)) as [s1 [x|e]] eqn:Hb;
        apply build_row_inv in Hb as [-> Hx]; intros [= <- <-].
      * split; [by eexists|]. split; [|by split].
        intros ? [= <-]. constructor; [|constructor].
        by apply (good_row_pending rest), Hx.
      * split; [by eexists|]. split; [done|]. split; [done|]. by right.
  - intros [= <- <-]. split; [exists (pending s); by rewrite set_pending_same|].
    split; [done|]. split; [done|]. by left.
Qed.

Lemma _cursor_fetchmany_inv size s s' r :
  _cursor_fetchmany size s = (s', r) →
  (∃ p, s' = set_pending p s) ∧ ∀ x, r = Ok x → Forall (good_row s) x.
Proof.
  unfold _cursor_fetchmany. destruct (description s) eqn:Hd.
  - intros Hb. apply build_rows_inv in Hb as [-> Hx]. split; [by eexists|].
    intros x Hr. eapply Forall_impl; [by apply Hx|].
    intros y. apply good_row_pending.
  - intros [= <- <-]. split; [exists (pending s); by rewrite set_pending_same|].
    done.
Qed.

Lemma _cursor_fetchall_inv s s' r :
  _cursor_fetchall s = (s', r) →
  (∃ p, s' = set_pending p s) ∧ ∀ x, r = Ok x → Forall (good_row s) x.
Proof.
  unfold _cursor_fetchall. destruct (description s) eqn:Hd.
  - intros Hb. apply build_rows_inv in Hb as [-> Hx]. split; [by eexists|].
    intros x Hr. eapply Forall_impl; [by apply Hx|].
    intros y. apply good_row_pending.
  - intros [= <- <-]. split; [exists (pending s); by rewrite set_pending_same|].
    done.
Qed.

Lemma builds_snoc_check tr : builds (tr ++ [EvCheck]) = builds tr.
Proof.
  unfold builds. rewrite List.filter_app, length_app. simpl. lia.
Qed.

Lemma builds_snoc_build tr a : builds (tr ++ [EvBuild a]) = S (builds tr).
Proof.
  unfold builds. rewrite List.filter_app, length_app. simpl. lia.
Qed.

Lemma checks_snoc_check tr : checks (tr ++ [EvCheck]) = S (checks tr).
Proof.
  unfold checks. rewrite List.filter_app, length_app. simpl. lia.
Qed.

Lemma checks_snoc_build tr a : checks (tr ++ [EvBuild a]) = checks tr.
Proof.
  unfold checks. rewrite List.filter_app, length_app. simpl. lia.
Qed.

Lemma truthy_list_cons {A} (o : option (list A)) :
  truthy_list o = true → ∃ x l, o = Some (x :: l).
Proof. destruct o as [[|x l]|]; simpl; try done. eauto. Qed.

(** The effect of the two lines [if self.__query_executed:
    self._build_index()]. *)
Lemma check_index_inv s s' r :
  check_index s = (s', r) →
  same_cursor s s' ∧ pending s' = pending s ∧ index_effect s s' ∧
  checks (trace s') = S (checks (trace s)) ∧
  (r = Ok tt → settled s').
Proof.
  unfold check_index, _build_index, settled, same_cursor. simpl.
  destruct (truthy_Z (query_executed s)) eqn:Ht.
  - destruct (query_executed s =? 1) eqn:H1; simpl.
    + apply Z.eqb_eq in H1.
      destruct (truthy_list (description s)) eqn:Hd.
      * destruct (truthy_list_cons _ Hd) as (c & cols & Hcols).
        destruct (index s) as [a|] eqn:Hi.
        -- rewrite Hcols. intros [= <- <-]. simpl.
           rewrite length_alter. repeat split; try done.
           ++ eapply effect_build; eauto; simpl.
              by rewrite builds_snoc_build, builds_snoc_check.
           ++ by rewrite checks_snoc_build, checks_snoc_check.
           ++ intros _. left. lia.
        -- intros [= <- <-]. simpl. repeat split; try done.
           ++ apply effect_none; simpl; try done. apply builds_snoc_check.
           ++ apply checks_snoc_check.
      * intros [= <- <-]. simpl. repeat split; try done.
        -- apply effect_none; simpl; try done. apply builds_snoc_check.
        -- apply checks_snoc_check.
        -- intros _. by right.
    + apply Z.eqb_neq in H1. intros [= <- <-]. simpl. repeat split; try done.
      * apply effect_none; simpl; try done. apply builds_snoc_check.
      * apply checks_snoc_check.
      * intros _. by left.
  - intros [= <- <-]. simpl. repeat split; try done.
    + apply effect_none; simpl; try done. apply builds_snoc_check.
    + apply checks_snoc_check.
    + intros _. left. unfold truthy_Z in Ht.
      destruct (query_executed s =? 0) eqn:H0; [|done].
      apply Z.eqb_eq in H0. lia.
Qed.

Lemma index_effect_pending p s s' :
  index_effect (set_pending p s) s' → index_effect s s'.
Proof.
  intros [H1 H2 H3|a cols H1 H2 H3 H4 H5 H6 H7]; simpl in *.
  - by apply effect_none.
  - by eapply effect_build.
Qed.

Lemma same_cursor_pending p s s' :
  same_cursor (set_pending p s) s' → same_cursor s s'.
Proof. done. Qed.

(** A fetch method: the primitive, then the index check. *)
Lemma fetch_then_check {A} (prim : M state A) (rowsf : A → list fetched)
    s s' r :
  (∀ s1 r1, prim s = (s1, r1) →
     (∃ p, s1 = set_pending p s) ∧
     ∀ x, r1 = Ok x → Forall (good_row s) (rowsf x)) →
  (res ← prim; check_index;; mret res) s = (s', r) →
  same_cursor s s' ∧ index_effect s s' ∧
  ∀ x, r = Ok x → Forall (good_row s) (rowsf x) ∧ settled s'.
Proof.
  intros Hprim. unfold_M.
  destruct (prim s) as [s1 [x|e]] eqn:Hp;
    destruct (Hprim _ _ eq_refl) as [[p ->] Hrows].
  - destruct (check_index (set_pending p s)) as [s2 [[]|e]] eqn:Hc;
      apply check_index_inv in Hc as (Hsame & _ & Heff & _ & Hset);
      intros [= <- <-];
      (split; [by apply (same_cursor_pending p)|]);
      (split; [by apply (index_effect_pending p)|]); [|done].
    intros ? [= <-]. split; [by apply Hrows|by apply Hset].
  - intros [= <- <-]. split; [done|]. split; [|done].
    by apply effect_none.
Qed.

Lemma DictCursor_next_inv s s' r :
  DictCursor_next s = (s', r) →
  same_cursor s s' ∧ index_effect s s' ∧
  (∀ x, r = Ok x → good_row s x ∧ settled s').
Proof.
  unfold DictCursor_next. unfold_M.
  destruct (_cursor_fetchone s) as [s1 [[x|]|e]] eqn:Hp;
    apply _cursor_fetchone_inv in Hp as ([p ->] & Hrows & Hnone & Herr).
  - destruct (check_index (set_pending p s)) as [s2 [[]|e]] eqn:Hc;
      apply check_index_inv in Hc as (Hsame & _ & Heff & _ & Hset);
      intros [= <- <-];
      (split; [by apply (same_cursor_pending p)|]);
      (split; [by apply (index_effect_pending p)|]); [|done].
    intros ? [= <-]. split; [|by apply Hset].
    specialize (Hrows _ eq_refl). by inversion Hrows.
  - destruct (Hnone eq_refl) as [Hpend Heq]. intros [= <- <-].
    rewrite Heq. split; [done|]. split; [by apply effect_none|]. done.
  - intros [= <- <-]. split; [done|]. split; [by apply effect_none|]. done.
Qed.

Lemma bind_unfold {S A B} (m : M S A) (k : A → M S B) (s : S) :
  (m ≫= k) s = match m s with
               | (s', Ok a) => k a s'
               | (s', Raise e) => (s', Raise e)
               end.
Proof. reflexivity. Qed.

(** Every fetch call leaves the cursor's attributes alone, builds the index
    at most once, and hands over rows that refer to the cursor's index. *)
Lemma do_fetch_spec f s s' r :
  do_fetch f s = (s', r) →
  same_cursor s s' ∧ index_effect s s' ∧
  ∀ rows, r = Ok rows → Forall (good_row s) rows ∧ settled s'.
Proof.
  destruct f as [|size| |]; simpl.
  - rewrite bind_unfold.
    destruct (DictCursor_fetchone s) as [s1 [x|e]] eqn:Hf;
      apply (fetch_then_check _ option_list) in Hf as (Hs & He & Hr);
      try (intros s2 r2 H2; apply _cursor_fetchone_inv in H2;
           by destruct H2 as (? & ? & _)).
    + intros [= <- <-]. split; [done|]. split; [done|].
      intros ? [= <-]. by apply Hr.
    + intros [= <- <-]. split; [done|]. split; [done|]. done.
  - unfold DictCursor_fetchmany. intros Hf.
    apply (fetch_then_check _ id) in Hf; [done|].
    intros s2 r2 H2. by apply _cursor_fetchmany_inv in H2.
  - unfold DictCursor_fetchall. intros Hf.
    apply (fetch_then_check _ id) in Hf; [done|].
    intros s2 r2 H2. by apply _cursor_fetchall_inv in H2.
  - rewrite bind_unfold. destruct (DictCursor_next s) as [s1 [x|e]] eqn:Hf;
      apply DictCursor_next_inv in Hf as (Hs & He & Hr); intros [= <- <-].
    + split; [done|]. split; [done|]. intros ? [= <-].
      destruct (Hr _ eq_refl). split; [|done]. by constructor.
    + split; [done|]. split; [done|]. done.
Qed.

(** *** The built index *)

Lemma last_pos_lookup n cols j :
  last_pos n cols = Some j →
  col_name <$> cols !! j = Some n ∧
  ∀ k, (j < k)%nat → col_name <$> cols !! k ≠ Some n.
Proof.
  revert j. induction cols as [|c cols IH]; intros j; simpl; [done|].
  destruct (last_pos n cols) as [j'|] eqn:Hl.
  - intros [= <-]. destruct (IH _ eq_refl) as [H1 H2]. split; [done|].
    intros [|k] Hk; [lia|]. simpl. apply H2. lia.
  - destruct (decide (col_name c = n)) as [Hc|Hc]; [|done].
    intros [= <-]. simpl. split; [by rewrite Hc|].
    intros [|k] Hk; [lia|]. simpl. clear IH Hk. revert k.
    induction cols as [|c' cols IH']; intros k; [done|].
    simpl in Hl. destruct (last_pos n cols) eqn:Hl'; [done|].
    destruct (decide (col_name c' = n)); [done|].
    destruct k as [|k]; simpl; [congruence|]. by apply IH'.
Qed.

Lemma last_pos_absent n cols :
  last_pos n cols = None → ∀ k, col_name <$> cols !! k ≠ Some n.
Proof.
  induction cols as [|c cols IH]; simpl; [done|].
  destruct (last_pos n cols) eqn:Hl; [done|].
  destruct (decide (col_name c = n)); [done|]. intros _ [|k]; simpl.
  - congruence.
  - by apply IH.
Qed.

Lemma last_pos_unique n cols j :
  col_name <$> cols !! j = Some n →
  (∀ k, (j < k)%nat → col_name <$> cols !! k ≠ Some n) →
  last_pos n cols = Some j.
Proof.
  intros Hj Hlast. destruct (last_pos n cols) as [j'|] eqn:Hl.
  - apply last_pos_lookup in Hl as [Hj' Hlast'].
    destruct (Nat.lt_trichotomy j j') as [Hlt|[->|Hlt]]; [|done|].
    + by destruct (Hlast _ Hlt).
    + by destruct (Hlast' _ Hlt).
  - by destruct (last_pos_absent _ _ Hl j).
Qed.

Lemma last_pos_lt n cols j : last_pos n cols = Some j → (j < length cols)%nat.
Proof.
  intros Hl. apply last_pos_lookup in Hl as [Hj _].
  destruct (cols !! j) eqn:Hc; [|done]. by apply lookup_lt_Some in Hc.
Qed.

(** What the loop of [_build_index] leaves under each name: the position
    of the last descriptor of that name, or what was there before. *)
Lemma index_loop_lookup i cols (d : gmap string nat) n :
  index_loop i cols d !! n =
  match last_pos n cols with
  | Some j => Some (i + j)%nat
  | None => d !! n
  end.
Proof.
  revert i d. induction cols as [|c cols IH]; intros i d; simpl; [done|].
  rewrite IH. destruct (last_pos n cols) as [j|].
  - f_equal. lia.
  - destruct (decide (col_name c = n)) as [->|Hc].
    + rewrite lookup_insert_eq. f_equal. lia.
    + by rewrite lookup_insert_ne.
Qed.

Lemma built_index_lookup cols n : built_index cols !! n = last_pos n cols.
Proof.
  unfold built_index. rewrite index_loop_lookup.
  by destruct (last_pos n cols).
Qed.

Lemma list_getitem_nat l p v :
  l !! p = Some v → list_getitem l (Z.of_nat p) = Ok v.
Proof.
  intros Hl. pose proof (lookup_lt_Some _ _ _ Hl) as Hlt.
  unfold list_getitem.
  destruct (Z.of_nat p <? 0) eqn:H0; [apply Z.ltb_lt in H0; lia|].
  rewrite H0. simpl.
  destruct (Z.of_nat (length l) <=? Z.of_nat p) eqn:H1;
    [apply Z.leb_le in H1; lia|].
  by rewrite Nat2Z.id, Hl.
Qed.

(** *** Rows of one execution *)

Lemma executed_after_execute out s cols :
  eo_description out = Some cols →
  let s1 := (DictCursor_execute out s).1 in
  executed cols (length (heap s)) s1 ∧ build_pending (length (heap s)) s1 ∧
  builds (trace s1) = builds (trace s) ∧ pending s1 = eo_rows out.
Proof.
  intros Hd. unfold DictCursor_execute, new_dict, _cursor_execute.
  unfold_M. simpl. unfold executed, build_pending. simpl.
  repeat split; try done.
  by rewrite lookup_app_r, Nat.sub_diag.
Qed.

Lemma executed_fetch cols a f s s' r :
  executed cols a s → do_fetch f s = (s', r) → executed cols a s'.
Proof.
  intros (Hd & Hi & Hf) Hdo.
  apply do_fetch_spec in Hdo as ((Hd' & Hi' & Hf' & _) & _).
  unfold executed. by rewrite Hd', Hi', Hf'.
Qed.

Lemma good_row_executed cols a s x :
  executed cols a s → good_row s x → row_of cols a x.
Proof.
  intros (Hd & Hi & Hf). destruct x as [vs|dr]; simpl.
  - congruence.
  - intros [Hi' (cols' & Hd' & Hlen)]. exists dr.
    split; [done|]. split; congruence.
Qed.

(** One fetch of an execution: a pending build is carried out when the
    fetch succeeds, a built index stays as it is. *)
Lemma ready_fetch cols a f s s' r :
  executed cols a s → (build_pending a s ∨ ready cols a s) →
  do_fetch f s = (s', r) →
  (build_pending a s' ∨ ready cols a s') ∧
  (ready cols a s → ready cols a s' ∧ heap s' = heap s ∧
                    builds (trace s') = builds (trace s)) ∧
  ∀ rows, r = Ok rows → Forall (row_of cols a) rows ∧ ready cols a s'.
Proof.
  intros Hex Hst Hdo. pose proof Hex as (Hd & Hi & Hf).
  apply do_fetch_spec in Hdo as (Hsame & Heff & Hrows).
  assert (Hready : ready cols a s →
            ready cols a s' ∧ heap s' = heap s ∧
            builds (trace s') = builds (trace s)).
  { intros [Hh Hq]. destruct Heff as [Hq' Hh' Hb|a' cols' H1 H2 H3 H4 H5 H6 H7].
    - split; [|done]. unfold ready. by rewrite Hh', Hq'.
    - destruct Hq as [Hq|[_ ->]]; [lia|]. congruence. }
  assert (Hnew : build_pending a s' ∨ ready cols a s').
  { destruct Hst as [[Hq Hh]|Hr]; [|right; by apply Hready].
    destruct Heff as [Hq' Hh' Hb|a' cols' H1 H2 H3 H4 H5 H6 H7].
    - left. unfold build_pending. by rewrite Hq', Hh'.
    - right. assert (a' = a) as -> by congruence.
      assert (cols' = cols) as -> by congruence.
      split; [|by left]. rewrite H6, list_lookup_alter_eq, Hh. done. }
  split; [done|]. split; [done|].
  intros rows ->. destruct (Hrows _ eq_refl) as [Hgood Hset]. split.
  - eapply Forall_impl; [done|]. intros x. by apply good_row_executed.
  - destruct Hnew as [[Hq Hh]|Hr]; [|done].
    destruct Hsame as (Hd' & _). unfold settled in Hset.
    rewrite Hd', Hd in Hset. destruct Hset as [Hset|Hset]; [done|].
    destruct cols; [|done]. split; [done|]. by right.
Qed.

(** Any number of fetch calls of one execution. *)
Lemma ready_run_fetches cols a fs s s' rows :
  executed cols a s → (build_pending a s ∨ ready cols a s) →
  run_fetches fs s = (s', rows) →
  executed cols a s' ∧ (build_pending a s' ∨ ready cols a s') ∧
  Forall (row_of cols a) rows ∧
  (rows ≠ [] ∨ ready cols a s → ready cols a s') ∧
  (ready cols a s → heap s' = heap s ∧
                    builds (trace s') = builds (trace s)) ∧
  (builds (trace s') ≤ S (builds (trace s)))%nat.
Proof.
  unfold run_fetches.
  revert s s' rows. induction fs as [|f fs IH]; intros s s' rows Hex Hst; simpl.
  - intros [= <- <-]. split; [done|]. split; [done|]. split; [done|].
    split; [by intros [|]|]. split; [done|]. lia.
  - destruct (do_fetch f s) as [s1 r] eqn:Hdo.
    destruct (run _ s1) as [s2 rows2] eqn:Hrun.
    intros [= <- <-].
    pose proof (executed_fetch _ _ _ _ _ _ Hex Hdo) as Hex1.
    pose proof (do_fetch_spec _ _ _ _ Hdo) as (_ & Heff & _).
    destruct (ready_fetch _ _ _ _ _ _ Hex Hst Hdo) as (Hst1 & Hkeep & Hrows).
    destruct (IH _ _ _ Hex1 Hst1 Hrun) as (Hex2 & Hst2 & Hall & Hrd & Hsame & Hle).
    split; [done|]. split; [done|]. split; [|split; [|split]].
    + apply Forall_app. split; [|done].
      destruct r as [rows1|e]; [by destruct (Hrows _ eq_refl)|by constructor].
    + intros [Hne|Hr].
      * destruct r as [rows1|e]; simpl in Hne.
        -- apply Hrd. right. by destruct (Hrows _ eq_refl).
        -- apply Hrd. by left.
      * apply Hrd. right. by apply Hkeep.
    + intros Hr. destruct (Hkeep Hr) as (Hr1 & Hh1 & Hb1).
      destruct (Hsame Hr1) as [Hh2 Hb2]. split; congruence.
    + destruct Heff as [Hq' Hh' Hb|a' cols' H1 H2 H3 H4 H5 H6 H7]; [lia|].
      assert (ready cols a s1) as Hr1.
      { destruct Hst1 as [[Hq _]|Hr]; [lia|done]. }
      destruct (Hsame Hr1) as [_ Hb2]. lia.
Qed.

Lemma last_pos_member c cols : c ∈ cols → is_Some (last_pos (col_name c) cols).
Proof.
  intros Hc. destruct (last_pos (col_name c) cols) eqn:Hl; [by eexists|].
  apply list_elem_of_lookup in Hc as [k Hk].
  destruct (last_pos_absent _ _ Hl k). by rewrite Hk.
Qed.

(** Rows fetched after an [execute] whose statement has the descriptors
    [cols]: their dictionary is the one built from [cols]. *)
Lemma rows_after_execute s0 out cols fs s' rows x :
  eo_description out = Some cols →
  run_fetches fs (DictCursor_execute out s0).1 = (s', rows) →
  x ∈ rows →
  ∃ dr, x = Row dr ∧ length (elems dr) = length cols ∧
        index s' = Some (_index dr) ∧
        heap s' !! _index dr = Some (built_index cols).
Proof.
  intros Hd Hrun Hx.
  destruct (executed_after_execute out s0 cols Hd) as (Hex & Hpend & _).
  destruct (ready_run_fetches _ _ _ _ _ _ Hex (or_introl Hpend) Hrun)
    as (Hex' & _ & Hall & Hready & _).
  rewrite Forall_forall in Hall. destruct (Hall _ Hx) as (dr & -> & Ha & Hlen).
  exists dr. split; [done|]. split; [done|].
  destruct Hex' as (_ & Hi & _). rewrite Ha. split; [done|].
  apply Hready. left. intros ->. by apply elem_of_nil in Hx.
Qed.

(** Name lookup on a row whose dictionary is the one built from [cols]. *)
Lemma getitem_built_index h dr cols n :
  h !! _index dr = Some (built_index cols) →
  length (elems dr) = length cols →
  DictRow_getitem h dr (KStr n) =
  match last_pos n cols with
  | Some j => DictRow_getitem h dr (KInt (Z.of_nat j))
  | None => Raise (KeyError n)
  end.
Proof.
  intros Hh Hlen. unfold DictRow_getitem, dict_getitem.
  rewrite Hh, built_index_lookup. by destruct (last_pos n cols).
Qed.

Lemma getitem_in_range h dr (p : nat) :
  (p < length (elems dr))%nat →
  ∃ v, elems dr !! p = Some v ∧
       DictRow_getitem h dr (KInt (Z.of_nat p)) = Ok v.
Proof.
  intros Hp. destruct (lookup_lt_is_Some_2 _ _ Hp) as [v Hv].
  exists v. split; [done|]. by apply list_getitem_nat.
Qed.

(** C1. After a statement was executed and produced N column descriptors,
    a [DictRow] has N positions when it is constructed, and every row
    fetched after that execution has length N; for each column name in the
    row's index, lookup by that name succeeds and returns the value that
    the row holds at the position the index gives, which is also what
    positional lookup returns there; that position is below N and the
    descriptor at it has that name.  Every column name of the statement
    is in the index. *)
Theorem C1_row_length_and_name_lookup :
  ∀ (s0 : state) (out : exec_outcome) (cols : list column)
    (fs : list fetch_op) (s' : state) (rows : list fetched),
    eo_description out = Some cols →
    run_fetches fs (DictCursor_execute out s0).1 = (s', rows) →
    (∀ st st' dr, description st = Some cols →
       DictRow_init st = (st', Ok dr) →
       length (elems dr) = length cols) ∧
    ∀ x, x ∈ rows →
      ∃ dr d, x = Row dr ∧
        length (elems dr) = length cols ∧
        heap s' !! _index dr = Some d ∧
        (∀ c, c ∈ cols → is_Some (d !! col_name c)) ∧
        ∀ name p, d !! name = Some p →
          (p < length cols)%nat ∧
          col_name <$> cols !! p = Some name ∧
          ∃ v, elems dr !! p = Some v ∧
               DictRow_getitem (heap s') dr (KStr name) = Ok v ∧
               DictRow_getitem (heap s') dr (KInt (Z.of_nat p)) = Ok v.
Proof.
  intros s0 out cols fs s' rows Hd Hrun. split.
  - intros st st' dr Hdesc. unfold DictRow_init. rewrite Hdesc.
    destruct (index st); [|done]. intros [= _ <-]. simpl.
    apply length_replicate.
  - intros x Hx.
    destruct (rows_after_execute _ _ _ _ _ _ _ Hd Hrun Hx)
      as (dr & -> & Hlen & _ & Hh).
    exists dr, (built_index cols). split; [done|]. split; [done|].
    split; [done|]. split.
    + intros c Hc. rewrite built_index_lookup. by apply last_pos_member.
    + intros name p. rewrite built_index_lookup. intros Hp.
      pose proof (last_pos_lt _ _ _ Hp) as Hlt.
      destruct (last_pos_lookup _ _ _ Hp) as [Hname _].
      split; [done|]. split; [done|].
      destruct (getitem_in_range (heap s') dr p) as (v & Hel & Hv); [lia|].
      exists v. split; [done|]. split; [|done].
      by rewrite (getitem_built_index _ _ cols), Hp.
Qed.

Lemma C1_witness :
  ∃ dr d, Row (MkDictRow 0 [VInt 1; VStr "a"]) = Row dr ∧
    length (elems dr) = length two_columns ∧
    heap after_select_two !! _index dr = Some d ∧
    (∀ c, c ∈ two_columns → is_Some (d !! col_name c)) ∧
    ∀ name p, d !! name = Some p →
      (p < length two_columns)%nat ∧
      col_name <$> two_columns !! p = Some name ∧
      ∃ v, elems dr !! p = Some v ∧
           DictRow_getitem (heap after_select_two) dr (KStr name) = Ok v ∧
           DictRow_getitem (heap after_select_two) dr (KInt (Z.of_nat p)) = Ok v.
Proof.
  refine (proj2 (C1_row_length_and_name_lookup new_cursor select_two
            two_columns [Fetchall] after_select_two rows_two _ _) _ _).
  - reflexivity.
  - vm_compute. reflexivity.
  - unfold rows_two. apply list_elem_of_here.
Defined.

(** *** The index is built once *)

Lemma same_cursor_trans s1 s2 s3 :
  same_cursor s1 s2 → same_cursor s2 s3 → same_cursor s1 s3.
Proof.
  unfold same_cursor. intros (?&?&?&?&?) (?&?&?&?&?).
  repeat split; congruence.
Qed.

Lemma good_row_same s s' x : same_cursor s s' → good_row s x → good_row s' x.
Proof.
  intros (Hd & Hi & Hf & _). destruct x; simpl; by rewrite ?Hd, ?Hi, ?Hf.
Qed.

(** Fetch calls alone build the index at most once, and not at all when no
    build is pending. *)
Lemma run_fetches_builds fs s s' rows :
  run_fetches fs s = (s', rows) →
  same_cursor s s' ∧ Forall (good_row s) rows ∧
  (builds (trace s') ≤ S (builds (trace s)))%nat ∧
  (query_executed s ≠ 1 →
   builds (trace s') = builds (trace s) ∧ heap s' = heap s ∧
   query_executed s' = query_executed s).
Proof.
  unfold run_fetches. revert s s' rows.
  induction fs as [|f fs IH]; intros s s' rows; simpl.
  - intros [= <- <-]. split; [done|]. split; [done|]. split; [lia|done].
  - destruct (do_fetch f s) as [s1 r] eqn:Hdo.
    destruct (run _ s1) as [s2 rows2] eqn:Hrun. intros [= <- <-].
    apply do_fetch_spec in Hdo as (Hsame & Heff & Hrows).
    apply IH in Hrun as (Hsame2 & Hgood2 & Hle & Hkeep).
    split; [by eapply same_cursor_trans|]. split; [|split].
    + apply Forall_app. split.
      * destruct r as [rows1|e]; [by destruct (Hrows _ eq_refl)|by constructor].
      * eapply Forall_impl; [done|]. intros x Hx.
        eapply good_row_same; [|done].
        destruct Hsame as (?&?&?&?&?). repeat split; congruence.
    + destruct Heff as [Hq' Hh' Hb|a' cols' H1 H2 H3 H4 H5 H6 H7]; [lia|].
      destruct Hkeep as (Hb2 & _); lia.
    + intros Hq. destruct Heff as [Hq' Hh' Hb|a' cols' H1 H2 H3 H4 H5 H6 H7];
        [|done].
      destruct Hkeep as (Hb2 & Hh2 & Hq2); [congruence|].
      repeat split; congruence.
Qed.

Lemma row_factory_after_execute out s :
  row_factory (DictCursor_execute out s).1 = Some DictRowClass ∧
  index (DictCursor_execute out s).1 = Some (length (heap s)) ∧
  query_executed (DictCursor_execute out s).1 = 1 ∧
  heap (DictCursor_execute out s).1 = heap s ++ [∅] ∧
  description (DictCursor_execute out s).1 = eo_description out.
Proof. done. Qed.

(** C2. The index is built at most once per statement execution: in any
    sequence of fetch calls that follows an [execute], the building loop
    runs at most once; and when the first fetch call after the [execute]
    built the index, no later fetch call of that execution builds again or
    changes any dictionary, the cursor keeps referring to the same
    dictionary object, and every row handed out (by the first and by the
    later calls) refers to that one object, whose content is unchanged. *)
Theorem C2_index_built_at_most_once :
  ∀ (s0 : state) (out : exec_outcome) (f : fetch_op) (s1 : state)
    (r1 : result (list fetched)) (fs : list fetch_op) (s2 : state)
    (rows : list fetched),
    do_fetch f (DictCursor_execute out s0).1 = (s1, r1) →
    run_fetches fs s1 = (s2, rows) →
    (builds (trace s2) ≤ S (builds (trace (DictCursor_execute out s0).1)))%nat ∧
    (builds (trace s1) = S (builds (trace (DictCursor_execute out s0).1)) →
     builds (trace s2) = builds (trace s1) ∧
     index s2 = index s1 ∧
     heap s2 = heap s1 ∧
     ∀ x, x ∈ rows_of r1 ++ rows →
       ∃ dr d, x = Row dr ∧ index s1 = Some (_index dr) ∧
               heap s1 !! _index dr = Some d ∧ heap s2 !! _index dr = Some d).
Proof.
  intros s0 out f s1 r1 fs s2 rows Hdo Hrun.
  destruct (row_factory_after_execute out s0) as (Hf & Hi & Hq & Hh & Hd).
  set (sx := (DictCursor_execute out s0).1) in *.
  pose proof (do_fetch_spec _ _ _ _ Hdo) as (Hsame & Heff & Hrows).
  pose proof (run_fetches_builds _ _ _ _ Hrun) as (Hsame2 & Hgood2 & Hle & Hkeep).
  split.
  - destruct Heff as [Hq' Hh' Hb|a' cols' H1 H2 H3 H4 H5 H6 H7]; [lia|].
    destruct Hkeep as (Hb2 & _); lia.
  - intros Hbuilt.
    destruct Heff as [Hq' Hh' Hb|a' cols' H1 H2 H3 H4 H5 H6 H7]; [lia|].
    destruct Hkeep as (Hb2 & Hh2 & Hq2); [lia|].
    destruct Hsame as (Hd1 & Hi1 & Hf1 & Ha1 & Hl1).
    destruct Hsame2 as (Hd2 & Hi2 & Hf2 & Ha2 & Hl2).
    split; [done|]. split; [done|]. split; [done|].
    intros x Hx.
    assert (good_row s1 x) as Hgood.
    { apply elem_of_app in Hx as [Hx|Hx].
      - destruct r1 as [rows1|e]; [|by apply elem_of_nil in Hx].
        destruct (Hrows _ eq_refl) as [Hall _].
        rewrite Forall_forall in Hall.
        eapply good_row_same; [|by apply Hall].
        repeat split; congruence.
      - rewrite Forall_forall in Hgood2. by apply Hgood2. }
    destruct x as [vs|dr]; simpl in Hgood; [congruence|].
    destruct Hgood as [Hidx _].
    assert (_index dr = length (heap s0)) as Ha by congruence.
    assert (is_Some (heap s1 !! _index dr)) as [d Hdict].
    { apply lookup_lt_is_Some. rewrite Hl1, Hh, length_app, Ha. simpl. lia. }
    exists dr, d. rewrite Hh2. done.
Qed.

Lemma C2_witness :
  (builds (trace after_second_fetchmany) ≤
     S (builds (trace (DictCursor_execute select_two new_cursor).1)))%nat ∧
  builds (trace after_second_fetchmany) = builds (trace after_first_fetchmany) ∧
  index after_second_fetchmany = index after_first_fetchmany ∧
  heap after_second_fetchmany = heap after_first_fetchmany ∧
  ∀ x, x ∈ rows_of (Ok [first_row]) ++ [second_row] →
    ∃ dr d, x = Row dr ∧ index after_first_fetchmany = Some (_index dr) ∧
            heap after_first_fetchmany !! _index dr = Some d ∧
            heap after_second_fetchmany !! _index dr = Some d.
Proof.
  destruct (C2_index_built_at_most_once new_cursor select_two
              (Fetchmany (Some 1%nat)) after_first_fetchmany (Ok [first_row])
              [Fetchmany (Some 1%nat)] after_second_fetchmany [second_row])
    as [Hle Hsame].
  - vm_compute. reflexivity.
  - vm_compute. reflexivity.
  - split; [exact Hle|]. apply Hsame. reflexivity.
Defined.

(** *** A new execution leaves the old index alone *)

Lemma do_call_execute out s :
  do_call (Execute out) s =
  ((DictCursor_execute out s).1,
   match (DictCursor_execute out s).2 with
   | Ok _ => Ok []
   | Raise e => Raise e
   end).
Proof.
  unfold do_call. rewrite bind_unfold.
  by destruct (DictCursor_execute out s) as [s1 [v|e]].
Qed.

Lemma do_call_callproc out s :
  do_call (Callproc out) s =
  ((DictCursor_execute out s).1,
   match (DictCursor_execute out s).2 with
   | Ok _ => Ok []
   | Raise e => Raise e
   end).
Proof.
  unfold do_call. rewrite bind_unfold.
  change (DictCursor_callproc out s) with (DictCursor_execute out s).
  by destruct (DictCursor_execute out s) as [s1 [v|e]].
Qed.

Lemma stable_execute a out s :
  stable a s →
  stable a (DictCursor_execute out s).1 ∧
  heap (DictCursor_execute out s).1 !! a = heap s !! a.
Proof.
  intros (Ha & Hwf & Hset).
  destruct (row_factory_after_execute out s) as (Hf & Hi & Hq & Hh & Hd).
  split; [split; [|split]|].
  - rewrite Hh, length_app. simpl. lia.
  - intros a'. rewrite Hi, Hh, length_app. intros [= <-]. simpl. lia.
  - rewrite Hi. intros [= <-]. lia.
  - rewrite Hh. by apply lookup_app_l.
Qed.

Lemma stable_fetch a f s s' r :
  stable a s → do_fetch f s = (s', r) →
  stable a s' ∧ heap s' !! a = heap s !! a.
Proof.
  intros (Ha & Hwf & Hset) Hdo.
  apply do_fetch_spec in Hdo as ((Hd & Hi & Hf & Hs & Hl) & Heff & _).
  assert (wf_state s') as Hwf'.
  { intros a'. rewrite Hi, Hl. apply Hwf. }
  destruct Heff as [Hq' Hh' Hb|a' cols' H1 H2 H3 H4 H5 H6 H7].
  - split; [|by rewrite Hh']. split; [lia|]. split; [done|].
    rewrite Hi. intros Hidx. unfold settled. rewrite Hq', Hd. by apply Hset.
  - assert (a' ≠ a) as Hne.
    { intros ->. destruct (Hset H2) as [Hq|Ht]; [done|].
      rewrite H3 in Ht. by destruct cols'. }
    split; [|by rewrite H6, list_lookup_alter_ne].
    split; [lia|]. split; [done|]. rewrite Hi, H2. by intros [= ?].
Qed.

Lemma stable_call a c s s' r :
  stable a s → do_call c s = (s', r) →
  stable a s' ∧ heap s' !! a = heap s !! a.
Proof.
  intros Hst. destruct c as [out|out|f].
  - rewrite do_call_execute. intros [= <- _]. by apply stable_execute.
  - rewrite do_call_callproc. intros [= <- _]. by apply stable_execute.
  - by apply stable_fetch.
Qed.

(** Whatever the caller does next, the dictionary at a stable address
    keeps its content. *)
Lemma stable_run a cs s s' rows :
  stable a s → run cs s = (s', rows) →
  stable a s' ∧ heap s' !! a = heap s !! a.
Proof.
  revert s s' rows. induction cs as [|c cs IH]; intros s s' rows Hst; simpl.
  - by intros [= <- _].
  - destruct (do_call c s) as [s1 r] eqn:Hdo.
    destruct (run cs s1) as [s2 rows2] eqn:Hrun. intros [= <- _].
    destruct (stable_call _ _ _ _ _ Hst Hdo) as [Hst1 Hh1].
    destruct (IH _ _ _ Hst1 Hrun) as [Hst2 Hh2]. split; [done|congruence].
Qed.

Lemma wf_state_execute out s : wf_state (DictCursor_execute out s).1.
Proof.
  destruct (row_factory_after_execute out s) as (_ & Hi & _ & Hh & _).
  intros a. rewrite Hi, Hh, length_app. intros [= <-]. simpl. lia.
Qed.

Lemma wf_state_call c s s' r :
  wf_state s → do_call c s = (s', r) → wf_state s'.
Proof.
  intros Hwf. destruct c as [out|out|f].
  - rewrite do_call_execute. intros [= <- _]. apply wf_state_execute.
  - rewrite do_call_callproc. intros [= <- _]. apply wf_state_execute.
  - intros Hdo. apply do_fetch_spec in Hdo as ((_ & Hi & _ & _ & Hl) & _).
    intros a. rewrite Hi, Hl. apply Hwf.
Qed.

(** Every state that a caller can reach from a new cursor is well formed. *)
Lemma wf_state_run cs s s' rows :
  wf_state s → run cs s = (s', rows) → wf_state s'.
Proof.
  revert s s' rows. induction cs as [|c cs IH]; intros s s' rows Hwf; simpl.
  - by intros [= <- _].
  - destruct (do_call c s) as [s1 r] eqn:Hdo.
    destruct (run cs s1) as [s2 rows2] eqn:Hrun. intros [= <- _].
    eapply IH; [|done]. by eapply wf_state_call.
Qed.

Lemma wf_state_new_cursor : wf_state new_cursor.
Proof. by intros a. Qed.

(** The rows of a successful fetch refer to a stable dictionary. *)
Lemma stable_after_fetch f s s1 rows dr :
  wf_state s → do_fetch f s = (s1, Ok rows) → Row dr ∈ rows →
  stable (_index dr) s1.
Proof.
  intros Hwf Hdo Hin.
  pose proof (wf_state_call (Fetch f) _ _ _ Hwf Hdo) as Hwf1.
  apply do_fetch_spec in Hdo as ((Hd & Hi & Hf & Hs & Hl) & _ & Hrows).
  destruct (Hrows _ eq_refl) as [Hall Hset].
  rewrite Forall_forall in Hall. destruct (Hall _ Hin) as [Hidx _].
  split; [|by split]. rewrite Hl. by apply Hwf.
Qed.

Lemma run_cons c cs s :
  run (c :: cs) s =
  let (s1, r) := do_call c s in
  let (s2, rows) := run cs s1 in (s2, rows_of r ++ rows).
Proof. reflexivity. Qed.

(** C3. Executing a second statement invalidates the index of the first:
    [execute] gives the cursor a new, empty dictionary, so every row
    fetched after the second execution has one position per column of the
    second statement and resolves a name against the second statement's
    columns (the position of that name there, [KeyError] for a name the
    second statement does not have); and the dictionary shared by the rows
    that an earlier fetch handed to the caller is not written to by
    anything the caller does afterwards with the cursor. *)
Theorem C3_second_execute_new_index :
  ∀ (s0 : state) (f : fetch_op) (s1 : state) (rows1 : list fetched)
    (out2 : exec_outcome) (cols2 : list column) (fs2 : list fetch_op)
    (s2 : state) (rows2 : list fetched),
    wf_state s0 →
    do_fetch f s0 = (s1, Ok rows1) →
    eo_description out2 = Some cols2 →
    run (Execute out2 :: (Fetch <$> fs2)) s1 = (s2, rows2) →
    (∀ x, x ∈ rows2 →
       ∃ dr, x = Row dr ∧ length (elems dr) = length cols2 ∧
         index s2 = Some (_index dr) ∧
         ∀ n, DictRow_getitem (heap s2) dr (KStr n) =
              match last_pos n cols2 with
              | Some j => DictRow_getitem (heap s2) dr (KInt (Z.of_nat j))
              | None => Raise (KeyError n)
              end) ∧
    (∀ dr1, Row dr1 ∈ rows1 →
       index s2 ≠ Some (_index dr1) ∧
       is_Some (heap s1 !! _index dr1) ∧
       ∀ cs s3 rows3, run cs s1 = (s3, rows3) →
         heap s3 !! _index dr1 = heap s1 !! _index dr1).
Proof.
  intros s0 f s1 rows1 out2 cols2 fs2 s2 rows2 Hwf Hdo Hd Hrun. split.
  - intros x Hx. rewrite run_cons, do_call_execute in Hrun.
    destruct (run _ (DictCursor_execute out2 s1).1) as [s2' rows2'] eqn:Hrun2.
    assert (s2' = s2 ∧ rows2' = rows2) as [-> ->].
    { destruct (DictCursor_execute out2 s1).2; simpl in Hrun;
        by injection Hrun. }
    destruct (rows_after_execute _ _ _ _ _ _ _ Hd Hrun2 Hx)
      as (dr & -> & Hlen & Hi & Hh).
    exists dr. split; [done|]. split; [done|]. split; [done|].
    intros n. by apply getitem_built_index.
  - intros dr1 Hin.
    pose proof (stable_after_fetch _ _ _ _ _ Hwf Hdo Hin) as Hst.
    split; [|split].
    + rewrite run_cons, do_call_execute in Hrun.
      destruct (run _ (DictCursor_execute out2 s1).1) as [s2' rows2'] eqn:Hrun2.
      assert (s2' = s2) as ->.
      { destruct (DictCursor_execute out2 s1).2; simpl in Hrun;
          by injection Hrun. }
      apply run_fetches_builds in Hrun2 as ((_ & Hi & _) & _).
      destruct (row_factory_after_execute out2 s1) as (_ & Hi2 & _).
      rewrite Hi, Hi2. destruct Hst as (Hlt & _). intros [= Heq]. lia.
    + apply lookup_lt_is_Some. by destruct Hst.
    + intros cs s3 rows3 Hcs. by destruct (stable_run _ _ _ _ _ Hst Hcs).
Qed.

Lemma C3_witness :
  (∃ dr, third_row = Row dr ∧ length (elems dr) = length three_columns ∧
     index after_select_three = Some (_index dr) ∧
     ∀ n, DictRow_getitem (heap after_select_three) dr (KStr n) =
          match last_pos n three_columns with
          | Some j =>
              DictRow_getitem (heap after_select_three) dr (KInt (Z.of_nat j))
          | None => Raise (KeyError n)
          end) ∧
  index after_select_three ≠ Some 0%nat ∧
  is_Some (heap after_select_two !! 0%nat) ∧
  heap after_select_three !! 0%nat = heap after_select_two !! 0%nat.
Proof.
  destruct (C3_second_execute_new_index
              (DictCursor_execute select_two new_cursor).1 Fetchall
              after_select_two rows_two select_three three_columns [Fetchone]
              after_select_three [third_row]) as [Hnew Hold].
  - intros a. simpl. intros [= <-]. simpl. lia.
  - vm_compute. reflexivity.
  - reflexivity.
  - vm_compute. reflexivity.
  - split; [apply Hnew, list_elem_of_here|].
    destruct (Hold (MkDictRow 0 [VInt 1; VStr "a"])) as (Hne & Hsome & Hkeep).
    + apply list_elem_of_here.
    + split; [exact Hne|]. split; [exact Hsome|].
      apply (Hkeep [Execute select_three; Fetch Fetchone] after_select_three
               [third_row]).
      vm_compute. reflexivity.
Defined.

(** *** Iteration *)

Lemma check_index_ok s a :
  index s = Some a → ∃ s', check_index s = (s', Ok tt).
Proof.
  intros Hi. unfold check_index, _build_index. simpl. rewrite Hi.
  destruct (truthy_Z (query_executed s)); [|by eexists].
  destruct ((query_executed s =? 1) && truthy_list (description s)) eqn:Hc;
    [|by eexists].
  apply andb_prop in Hc as [_ Hd].
  destruct (truthy_list_cons _ Hd) as (c & cols & ->). by eexists.
Qed.

(** [next] at the end of the result set: [StopIteration] at once, the
    cursor is left exactly as it was. *)
Lemma DictCursor_next_exhausted s cols :
  description s = Some cols → pending s = [] →
  DictCursor_next s = (s, Raise StopIteration).
Proof.
  intros Hd Hp. unfold DictCursor_next, _cursor_fetchone. unfold_M.
  by rewrite Hd, Hp.
Qed.

(** [next] with a tuple left: the row is returned after the index check. *)
Lemma DictCursor_next_row cols a s t rest :
  executed cols a s → (build_pending a s ∨ ready cols a s) →
  pending s = t :: rest →
  ∃ s1 x, DictCursor_next s = (s1, Ok x) ∧ pending s1 = rest ∧
          executed cols a s1 ∧ ready cols a s1 ∧ row_of cols a x ∧
          checks (trace s1) = S (checks (trace s)).
Proof.
  intros Hex Hst Hp. pose proof Hex as (Hd & Hi & Hf).
  destruct (check_index_ok (set_pending rest s) a Hi) as [s1 Hc].
  pose proof (check_index_inv _ _ _ Hc) as (_ & Hp1 & _ & Hchecks & _).
  set (x := Row (MkDictRow a (fill_row (length (replicate (length cols) VNone))
                                t (replicate (length cols) VNone)))).
  assert (DictCursor_next s = (s1, Ok x)) as Hnext.
  { unfold DictCursor_next, _cursor_fetchone, build_row, DictRow_init.
    unfold_M. rewrite Hd, Hp. simpl. rewrite Hf, Hi, Hd. simpl.
    by rewrite Hc. }
  assert (do_fetch Next s = (s1, Ok [x])) as Hdo.
  { simpl. by rewrite bind_unfold, Hnext. }
  destruct (ready_fetch _ _ _ _ _ _ Hex Hst Hdo) as (_ & _ & Hrows).
  destruct (Hrows _ eq_refl) as [Hall Hready].
  exists s1, x. split; [done|]. split; [done|].
  split; [by eapply executed_fetch|]. split; [done|].
  split; [by inversion Hall|done].
Qed.

(** Iterating over the whole result set: it ends, with every row, and with
    a built index as soon as there was a row. *)
Lemma iterate_all cols a ts s :
  executed cols a s → (build_pending a s ∨ ready cols a s) →
  pending s = ts →
  ∃ s' rows, iterate (S (length ts)) s = (s', Some rows) ∧
    length rows = length ts ∧ pending s' = [] ∧ executed cols a s' ∧
    Forall (row_of cols a) rows ∧
    checks (trace s') = (checks (trace s) + length rows)%nat ∧
    (ts ≠ [] → ready cols a s') ∧ (ts = [] → s' = s).
Proof.
  revert s. induction ts as [|t ts IH]; intros s Hex Hst Hp.
  - exists s, []. pose proof Hex as (Hd & _).
    simpl. rewrite (DictCursor_next_exhausted s cols Hd Hp).
    split; [done|]. split; [done|]. split; [done|]. split; [done|].
    split; [by constructor|]. split; [simpl; lia|]. by split.
  - destruct (DictCursor_next_row _ _ _ _ _ Hex Hst Hp)
      as (s1 & x & Hnext & Hp1 & Hex1 & Hr1 & Hx & Hc1).
    destruct (IH s1 Hex1 (or_intror Hr1) Hp1)
      as (s' & rows & Hit & Hlen & Hp' & Hex' & Hall & Hc' & Hr' & Hsame).
    exists s', (x :: rows).
    change (iterate (S (length (t :: ts))) s) with
      (match DictCursor_next s with
       | (s1, Ok r) =>
           let (s2, o) := iterate (S (length ts)) s1 in
           (s2, (λ rows, r :: rows) <$> o)
       | (s1, Raise StopIteration) => (s1, Some [])
       | (s1, Raise _) => (s1, None)
       end).
    rewrite Hnext, Hit. simpl.
    split; [done|]. split; [by rewrite Hlen|]. split; [done|].
    split; [done|]. split; [by constructor|]. split; [lia|]. split; [|done].
    intros _. destruct ts as [|t' ts'].
    + by rewrite (Hsame eq_refl).
    + by apply Hr'.
Qed.

(** C6, as stated, fails: after a statement with two columns and no rows,
    [next] raises [StopIteration] without having run the index check: no
    check is recorded, the build is still pending and the dictionary is
    still empty; [fetchone] in the same state runs the check and builds. *)
Lemma C6_counterexample :
  (DictCursor_execute select_none new_cursor).1 = after_select_none ∧
  DictCursor_next after_select_none = (after_select_none, Raise StopIteration) ∧
  checks (trace after_select_none) = 0%nat ∧
  query_executed after_select_none = 1 ∧
  heap after_select_none !! 0%nat = Some ∅ ∧
  checks (trace (DictCursor_fetchone after_select_none).1) = 1%nat ∧
  heap (DictCursor_fetchone after_select_none).1 !! 0%nat = Some index_two.
Proof. vm_compute. repeat split; reflexivity. Qed.

(** C6, amended. When [next] finds no further row it raises
    [StopIteration] at once, before and without the pending-index-build
    check, leaving the cursor untouched.  The check runs in every call of
    [next] that returns a row.  So iterating over an execution with [next]
    ends after all rows, and if at least one row was produced the cursor
    ends with its index built from the statement's descriptors, every row
    referring to it; with no row at all the cursor is left as [execute]
    left it. *)
Theorem C6_stop_iteration_without_check :
  ∀ (s0 : state) (out : exec_outcome) (cols : list column),
    eo_description out = Some cols →
    (∀ s, description s = Some cols → pending s = [] →
       DictCursor_next s = (s, Raise StopIteration)) ∧
    (∀ s s' x, DictCursor_next s = (s', Ok x) →
       checks (trace s') = S (checks (trace s)) ∧ settled s') ∧
    ∃ s' rows,
      iterate (S (length (eo_rows out))) (DictCursor_execute out s0).1
        = (s', Some rows) ∧
      length rows = length (eo_rows out) ∧
      pending s' = [] ∧
      (eo_rows out ≠ [] →
         index s' = Some (length (heap s0)) ∧
         heap s' !! length (heap s0) = Some (built_index cols) ∧
         Forall (row_of cols (length (heap s0))) rows) ∧
      (eo_rows out = [] → s' = (DictCursor_execute out s0).1).
Proof.
  intros s0 out cols Hd. split; [|split].
  - intros s. apply DictCursor_next_exhausted.
  - intros s s' x Hnext.
    pose proof (DictCursor_next_inv _ _ _ Hnext) as (_ & _ & Hr).
    destruct (Hr _ eq_refl) as [_ Hset]. split; [|done].
    revert Hnext. unfold DictCursor_next. unfold_M.
    destruct (_cursor_fetchone s) as [s1 [[y|]|e]] eqn:Hp; [|done|done].
    apply _cursor_fetchone_inv in Hp as ([p ->] & _).
    destruct (check_index (set_pending p s)) as [s2 [[]|e]] eqn:Hc; [|done].
    intros [= <- _].
    by apply check_index_inv in Hc as (_ & _ & _ & Hchecks & _).
  - destruct (executed_after_execute out s0 cols Hd) as (Hex & Hpend & _ & Hp).
    destruct (iterate_all cols _ (eo_rows out) _ Hex (or_introl Hpend) Hp)
      as (s' & rows & Hit & Hlen & Hp' & Hex' & Hall & _ & Hr' & Hsame).
    exists s', rows. split; [done|]. split; [done|]. split; [done|].
    split; [|done]. intros Hne. destruct (Hr' Hne) as [Hh _].
    by destruct Hex' as (_ & Hi & _).
Qed.

Lemma C6_witness :
  DictCursor_next after_select_two = (after_select_two, Raise StopIteration) ∧
  ∃ s' rows,
    iterate (S (length (eo_rows select_two)))
            (DictCursor_execute select_two new_cursor).1 = (s', Some rows) ∧
    length rows = length (eo_rows select_two) ∧
    pending s' = [] ∧
    (eo_rows select_two ≠ [] →
       index s' = Some (length (heap new_cursor)) ∧
       heap s' !! length (heap new_cursor) = Some (built_index two_columns) ∧
       Forall (row_of two_columns (length (heap new_cursor))) rows) ∧
    (eo_rows select_two = [] →
       s' = (DictCursor_execute select_two new_cursor).1).
Proof.
  destruct (C6_stop_iteration_without_check new_cursor select_two two_columns)
    as (Hstop & _ & Hall).
  - reflexivity.
  - split; [|exact Hall]. apply Hstop; reflexivity.
Defined.

(** *** Duplicate column names *)

(** C10. If two descriptors of one execution carry the same name, the
    index built by [_build_index] maps that name to the position of its
    last occurrence, and name lookup on every row of that execution
    returns the value at that last position. *)
Theorem C10_duplicate_name_last_wins :
  ∀ (s0 : state) (out : exec_outcome) (cols : list column)
    (fs : list fetch_op) (s' : state) (rows : list fetched)
    (name : string) (i j : nat),
    eo_description out = Some cols →
    run_fetches fs (DictCursor_execute out s0).1 = (s', rows) →
    (i < j)%nat →
    col_name <$> cols !! i = Some name →
    col_name <$> cols !! j = Some name →
    (∀ k, (j < k)%nat → col_name <$> cols !! k ≠ Some name) →
    index_loop 0 cols ∅ !! name = Some j ∧
    ∀ x, x ∈ rows →
      ∃ dr v, x = Row dr ∧
        heap s' !! _index dr = Some (index_loop 0 cols ∅) ∧
        elems dr !! j = Some v ∧
        DictRow_getitem (heap s') dr (KStr name) = Ok v ∧
        DictRow_getitem (heap s') dr (KInt (Z.of_nat j)) = Ok v.
Proof.
  intros s0 out cols fs s' rows name i j Hd Hrun Hij Hi Hj Hlast.
  pose proof (last_pos_unique _ _ _ Hj Hlast) as Hpos.
  split.
  - fold (built_index cols). by rewrite built_index_lookup.
  - intros x Hx.
    destruct (rows_after_execute _ _ _ _ _ _ _ Hd Hrun Hx)
      as (dr & -> & Hlen & _ & Hh).
    pose proof (last_pos_lt _ _ _ Hpos) as Hlt.
    destruct (getitem_in_range (heap s') dr j) as (v & Hv & Hget); [lia|].
    exists dr, v. split; [done|]. split; [done|]. split; [done|].
    split; [|done]. by rewrite (getitem_built_index _ _ cols), Hpos.
Qed.

Lemma C10_witness :
  index_loop 0 dup_columns ∅ !! "id" = Some 2%nat ∧
  ∃ dr v, dup_row = Row dr ∧
    heap after_select_dup !! _index dr = Some (index_loop 0 dup_columns ∅) ∧
    elems dr !! 2%nat = Some v ∧
    DictRow_getitem (heap after_select_dup) dr (KStr "id") = Ok v ∧
    DictRow_getitem (heap after_select_dup) dr (KInt (Z.of_nat 2)) = Ok v.
Proof.
  destruct (C10_duplicate_name_last_wins new_cursor select_dup dup_columns
              [Fetchone] after_select_dup [dup_row] "id" 0%nat 2%nat)
    as [Hidx Hrows].
  - reflexivity.
  - vm_compute. reflexivity.
  - lia.
  - reflexivity.
  - reflexivity.
  - intros [|[|[|k]]] Hk; [lia|lia|lia|]. simpl. discriminate.
  - split; [exact Hidx|]. apply Hrows, list_elem_of_here.
Defined.

(** ** Properties of [SQL_IN] *)

Lemma append_nil_r s : s +:+ EmptyString = s.
Proof.
  induction s as [|a s IH]; [done|].
  change (String a (s +:+ EmptyString) = String a s). by rewrite IH.
Qed.

Lemma join_cons sep x l :
  join sep (x :: l) = x +:+ foldr (λ y acc, sep +:+ y +:+ acc) EmptyString l.
Proof.
  revert x. induction l as [|y l IH]; intros x.
  - simpl. by rewrite append_nil_r.
  - change (join sep (x :: y :: l)) with (x +:+ sep +:+ join sep (y :: l)).
    by rewrite IH.
Qed.

Lemma qobjs_Forall2 {V} (adapt : V → result string) seq qs :
  qobjs adapt seq = Ok qs ↔ Forall2 (λ o q, adapt o = Ok q) seq qs.
Proof.
  revert qs. induction seq as [|o seq IH]; intros qs; simpl.
  - split.
    + intros [= <-]. constructor.
    + intros H. by inversion H.
  - destruct (adapt o) as [q|e] eqn:Ho.
    + destruct (qobjs adapt seq) as [qs'|e] eqn:Hq.
      * split.
        -- intros [= <-]. constructor; [done|]. by apply IH.
        -- intros H. inversion H as [|? q' ? qs'' Hq' Hall]; subst.
           apply IH in Hall. congruence.
      * split; [done|]. intros H. inversion H as [|? q' ? qs'' Hq' Hall]; subst.
        apply IH in Hall. congruence.
    + split; [done|]. intros H. inversion H; subst. congruence.
Qed.

(** C9. [SQL_IN.getquoted] adapts every element of the sequence through
    the adaptation collaborator, one by one; its output is the elements'
    quoted texts joined with [", "] between parentheses: the first text,
    then each further text preceded by a comma and a space.  For the empty
    sequence the output is exactly [()]. *)
Theorem C9_getquoted_parenthesised_list :
  ∀ (V : Type) (adapt : V → result string) (seq : list V) (qs : list string),
    Forall2 (λ o q, adapt o = Ok q) seq qs →
    SQL_IN_getquoted adapt seq = Ok ("(" +:+ join ", " qs +:+ ")") ∧
    (∀ out, SQL_IN_getquoted adapt seq = Ok out →
            out = "(" +:+ join ", " qs +:+ ")") ∧
    join ", " qs =
      match qs with
      | [] => EmptyString
      | q :: qs' => q +:+ foldr (λ y acc, ", " +:+ y +:+ acc) EmptyString qs'
      end ∧
    SQL_IN_getquoted adapt [] = Ok "()".
Proof.
  intros V adapt seq qs Hall. apply qobjs_Forall2 in Hall.
  unfold SQL_IN_getquoted. rewrite Hall. split; [done|].
  split; [by intros out [= <-]|]. split; [|done].
  destruct qs as [|q qs']; [done|]. apply join_cons.
Qed.

Lemma C9_witness :
  SQL_IN_getquoted adapt_int [1; 2] = Ok "(1, 2)".
Proof.
  destruct (C9_getquoted_parenthesised_list Z adapt_int [1; 2] ["1"; "2"])
    as [Hout _].
  - repeat constructor.
  - exact Hout.
Defined.

(** ** Properties of the logging connections and cursors *)

Lemma LoggingCursor_execute_unfold stmt vars out s :
  LoggingCursor_execute stmt vars out s =
  match connection_log (po_query out)
          (set_query (po_query out) (lemit (LvExecute stmt) s)) with
  | (s', Ok _) => (s', po_result out)
  | (s', Raise e) => (s', Raise e)
  end.
Proof. reflexivity. Qed.

Lemma LoggingCursor_callproc_unfold procname vars out s :
  LoggingCursor_callproc procname vars out s =
  match connection_log (po_query out)
          (set_query (po_query out) (lemit (LvCallproc procname) s)) with
  | (s', Ok _) => (s', po_result out)
  | (s', Raise e) => (s', Raise e)
  end.
Proof. reflexivity. Qed.

(** The log step of an initialized [LoggingConnection]: [filter] is called
    once and the message, unless empty, is written once; it never raises. *)
Lemma connection_log_base s msg :
  conn_class s = LoggingConnectionClass → initialized s →
  ∃ s', connection_log msg s = (s', Ok tt) ∧
        ltrace s' = ltrace s ++ [LvFilter msg] ∧
        sink_entries s' = sink_entries s ++ base_log_entries s msg ∧
        conn_class s' = conn_class s ∧ initialized s' ∧
        query s' = query s ∧ ticks s' = ticks s.
Proof.
  destruct s as [cls lo lg mt cc q ts clk tk nl tr].
  cbv [conn_class initialized _logobj log]. intros -> Hinit.
  destruct lo as [[l|l]|], lg as [[]|]; try done;
    destruct msg as [[|c m]|]; unfold_log; eexists;
    (split; [reflexivity|]); cbv beta iota; rewrite ?app_nil_r; done.
Qed.


(** C4. On an initialized [LoggingConnection], [LoggingCursor.execute] and
    [LoggingCursor.callproc] call the wrapped primitive and then, whether
    it returned or raised, run the log step exactly once: [filter] is
    called once, after the primitive, with the text the primitive left in
    [self.query], and that text (unless empty) is written once.  The
    caller gets exactly the primitive's result or exception. *)
Theorem C4_logging_cursor_logs_once :
  ∀ (s : lstate) (stmt : string) (vars : value) (out : prim_outcome),
    conn_class s = LoggingConnectionClass →
    initialized s →
    (∃ s', LoggingCursor_execute stmt vars out s = (s', po_result out) ∧
       ltrace s' = ltrace s ++ [LvExecute stmt; LvFilter (po_query out)] ∧
       sink_entries s' =
         sink_entries s ++ base_log_entries s (po_query out) ∧
       initialized s') ∧
    (∃ s', LoggingCursor_callproc stmt vars out s = (s', po_result out) ∧
       ltrace s' = ltrace s ++ [LvCallproc stmt; LvFilter (po_query out)] ∧
       sink_entries s' =
         sink_entries s ++ base_log_entries s (po_query out) ∧
       initialized s').
Proof.
  intros s stmt vars out Hcls Hinit. split.
  - rewrite LoggingCursor_execute_unfold.
    destruct (connection_log_base
                (set_query (po_query out) (lemit (LvExecute stmt) s))
                (po_query out))
      as (s' & Hlog & Htr & Hsink & _ & Hinit' & _); [done..|].
    exists s'. rewrite Hlog. split; [done|]. split; [|by split].
    rewrite Htr. simpl. by rewrite <- app_assoc.
  - rewrite LoggingCursor_callproc_unfold.
    destruct (connection_log_base
                (set_query (po_query out) (lemit (LvCallproc stmt) s))
                (po_query out))
      as (s' & Hlog & Htr & Hsink & _ & Hinit' & _); [done..|].
    exists s'. rewrite Hlog. split; [done|]. split; [|by split].
    rewrite Htr. simpl. by rewrite <- app_assoc.
Qed.

Lemma C4_witness :
  (∃ s', LoggingCursor_execute "SELECT 1/0" VNone failing_statement
           file_connection = (s', Raise (BackendError "division by zero")) ∧
     ltrace s' = [LvExecute "SELECT 1/0"; LvFilter (Some "SELECT 1/0")] ∧
     sink_entries s' = ["SELECT 1/0" +:+ posix_linesep] ∧
     initialized s') ∧
  (∃ s', LoggingCursor_callproc "SELECT 1/0" VNone failing_statement
           file_connection = (s', Raise (BackendError "division by zero")) ∧
     ltrace s' = [LvCallproc "SELECT 1/0"; LvFilter (Some "SELECT 1/0")] ∧
     sink_entries s' = ["SELECT 1/0" +:+ posix_linesep] ∧
     initialized s').
Proof.
  apply (C4_logging_cursor_logs_once file_connection "SELECT 1/0" VNone
           failing_statement).
  - reflexivity.
  - exact I.
Defined.

Lemma truthy_app_r a b :
  truthy_str (Some b) = true → truthy_str (Some (a +:+ b)) = true.
Proof. intros Hb. destruct a; [exact Hb|reflexivity]. Qed.

Lemma timed_message_truthy s q t : truthy_str (Some (timed_message s q t)) = true.
Proof.
  unfold timed_message. apply truthy_app_r, truthy_app_r. reflexivity.
Qed.

(** The log step of an initialized [MinTimeLoggingConnection], [t] being
    the milliseconds between the cursor's timestamp and the clock reading
    taken by [filter]. *)
Lemma connection_log_timed s msg ts T :
  conn_class s = MinTimeLoggingConnectionClass → initialized s →
  timestamp s = Some ts → _mintime s = Some T →
  let t := ((clock s (ticks s) - ts) * 1000)%Q in
  (Qle_bool t T = true →
   connection_log msg s = (tick (lemit (LvFilter msg) s), Ok tt)) ∧
  (Qle_bool t T = false → ∀ q, msg = Some q →
   ∃ s', connection_log msg s = (s', Ok tt) ∧
         ltrace s' = ltrace s ++ [LvFilter msg] ∧
         sink_entries s' = sink_entries s ++ [timed_entry s q t]).
Proof.
  destruct s as [cls lo lg mt cc q0 ts0 clk tk nl tr].
  cbv [conn_class initialized _logobj log timestamp _mintime clock ticks].
  intros -> Hinit -> ->. split.
  - intros Hle.
    destruct lo as [[l|l]|], lg as [[]|]; try done; unfold_log;
      by rewrite Hle.
  - intros Hgt q ->.
    pose proof (timed_message_truthy
                  (MkL MinTimeLoggingConnectionClass lo lg (Some T) cc q0
                       (Some ts) clk tk nl tr) q
                  ((clk tk - ts) * 1000)%Q) as Htruthy.
    revert Htruthy. unfold_log.
    destruct lo as [[l|l]|], lg as [[]|]; try done;
      rewrite Hgt; cbv beta iota delta [negb];
      destruct (_ +:+ _) eqn:Hm; try done; intros _; eexists;
      (split; [reflexivity|]); done.
Qed.




(** *** Uninitialized connections *)

Lemma use_cursor_uninitialized c s :
  _logobj s = None → use_cursor c s = (s, Raise not_initialized).
Proof.
  intros Hno. unfold use_cursor. rewrite bind_unfold.
  unfold connection_cursor, LoggingConnection_cursor,
    MinTimeLoggingConnection_cursor.
  destruct (conn_class s); rewrite bind_unfold; unfold _check; by rewrite Hno.
Qed.

Lemma connection_initialize_spec logobj mintime s :
  ∃ s1, connection_initialize logobj mintime s = (s1, Ok tt) ∧
        initialized s1 ∧ conn_class s1 = conn_class s ∧
        ltrace s1 = ltrace s ∧ clock s1 = clock s ∧ ticks s1 = ticks s ∧
        (conn_class s = MinTimeLoggingConnectionClass →
         _mintime s1 = Some mintime).
Proof.
  destruct s as [cls lo lg mt cc q ts clk tk nl tr].
  unfold connection_initialize. destruct cls, logobj; eexists;
    (split; [reflexivity|]); done.
Qed.

Lemma connection_cursor_initialized s :
  initialized s →
  connection_cursor s =
  (set_cursor (match conn_class s with
               | LoggingConnectionClass => LoggingCursorClass
               | MinTimeLoggingConnectionClass => MinTimeLoggingCursorClass
               end) s, Ok tt).
Proof.
  destruct s as [cls lo lg mt cc q ts clk tk nl tr].
  cbv [initialized _logobj log]. intros Hinit.
  unfold connection_cursor.
  destruct cls, lo as [[l|l]|]; done.
Qed.

(** What [MinTimeLoggingCursor.callproc] does, on any cursor. *)
Lemma MinTimeLoggingCursor_callproc_eval procname vars out s :
  MinTimeLoggingCursor_callproc procname vars out s =
  (set_timestamp (Some (clock s (ticks s))) (tick s), Raise (NameError "var")).
Proof. by vm_compute. Qed.

(** C7. On a logging connection whose [initialize] was never called,
    obtaining a cursor and calling [execute] or [callproc] on it fails
    with the not-initialized [ProgrammingError]; the check is made by
    [cursor()], so nothing is executed, logged or changed.  After
    [initialize] the check passes for both connection classes, and on a
    [LoggingConnection] the same operation runs the primitive and returns
    its outcome.  On a [MinTimeLoggingConnection], [execute] does so when
    the primitive left a statement text, but [callproc] does not succeed
    after initialization either: whatever the primitive would answer, it
    raises [NameError] for the unbound name [var], with no primitive
    invoked and nothing logged. *)
Theorem C7_uninitialized_connection_fails :
  ∀ (s : lstate) (op : cursor_call) (logobj : sink) (mintime : Q),
    _logobj s = None →
    use_cursor op s = (s, Raise not_initialized) ∧
    (connection_initialize logobj mintime s).2 = Ok tt ∧
    (connection_cursor (connection_initialize logobj mintime s).1).2 = Ok tt ∧
    (conn_class s = LoggingConnectionClass →
     ∃ s2, use_cursor op (connection_initialize logobj mintime s).1
             = (s2, outcome_of op) ∧
           ltrace s2 = ltrace s ++ [prim_event op; LvFilter (query_of op)]) ∧
    (conn_class s = MinTimeLoggingConnectionClass →
     ∀ stmt vars out q, op = CExecute stmt vars out → po_query out = Some q →
     ∃ s2, use_cursor op (connection_initialize logobj mintime s).1
             = (s2, outcome_of op) ∧
           ltrace s2 = ltrace s ++ [prim_event op; LvFilter (query_of op)]) ∧
    (conn_class s = MinTimeLoggingConnectionClass →
     ∀ procname vars out, op = CCallproc procname vars out →
     ∃ s2, use_cursor op (connection_initialize logobj mintime s).1
             = (s2, Raise (NameError "var")) ∧
           ltrace s2 = ltrace s ∧
           _logobj s2 = Some logobj).
Proof.
  intros s op logobj mintime Hno.
  split; [by apply use_cursor_uninitialized|].
  destruct (connection_initialize_spec logobj mintime s)
    as (s1 & Hinit & Hs1 & Hcls & Htr & Hclk & Htk & Hmin).
  rewrite Hinit. simpl. split; [done|].
  pose proof (connection_cursor_initialized s1 Hs1) as Hcur.
  split; [by rewrite Hcur|]. split; [|split].
  - intros Hbase. rewrite Hbase in Hcls.
    unfold use_cursor. rewrite bind_unfold, Hcur, Hcls.
    set (s1c := set_cursor LoggingCursorClass s1).
    assert (conn_class s1c = LoggingConnectionClass) as Hc by done.
    assert (initialized s1c) as Hi by done.
    destruct op as [stmt vars out|procname vars out]; unfold cursor_do; simpl.
    + rewrite LoggingCursor_execute_unfold.
      destruct (connection_log_base
                  (set_query (po_query out) (lemit (LvExecute stmt) s1c))
                  (po_query out))
        as (s2 & Hlog & Htr2 & _); [done..|].
      exists s2. rewrite Hlog. split; [done|].
      rewrite Htr2. simpl. by rewrite Htr, <- app_assoc.
    + rewrite LoggingCursor_callproc_unfold.
      destruct (connection_log_base
                  (set_query (po_query out) (lemit (LvCallproc procname) s1c))
                  (po_query out))
        as (s2 & Hlog & Htr2 & _); [done..|].
      exists s2. rewrite Hlog. split; [done|].
      rewrite Htr2. simpl. by rewrite Htr, <- app_assoc.
  - intros Htimed stmt vars out q -> Hq. rewrite Htimed in Hcls.
    unfold use_cursor. rewrite bind_unfold, Hcur, Hcls.
    set (s1c := set_cursor MinTimeLoggingCursorClass s1).
    unfold cursor_do. simpl.
    set (s2 := set_query (po_query out)
                 (lemit (LvExecute stmt)
                    (set_timestamp (Some (clock s1c (ticks s1c))) (tick s1c)))).
    assert (MinTimeLoggingCursor_execute stmt vars out s1c =
            match connection_log (po_query out) s2 with
            | (s', Ok _) => (s', po_result out)
            | (s', Raise e) => (s', Raise e)
            end) as Hexec by reflexivity.
    destruct (connection_log_timed s2 (po_query out) (clock s1c (ticks s1c))
                mintime) as [Hquiet Hlog]; [done|done|done|by apply Hmin|].
    rewrite Hexec.
    destruct (Qle_bool ((clock s2 (ticks s2) - clock s1c (ticks s1c)) * 1000)
                mintime) eqn:Hle.
    + rewrite (Hquiet eq_refl). eexists. split; [reflexivity|].
      simpl. by rewrite Htr, <- app_assoc.
    + destruct (Hlog eq_refl q Hq) as (s3 & Hcl & Htr3 & _).
      exists s3. rewrite Hcl. split; [done|].
      rewrite Htr3. simpl. by rewrite Htr, <- app_assoc.
  - intros Htimed procname vars out ->. rewrite Htimed in Hcls.
    unfold use_cursor. rewrite bind_unfold, Hcur, Hcls.
    set (s1c := set_cursor MinTimeLoggingCursorClass s1).
    unfold cursor_do. simpl.
    rewrite MinTimeLoggingCursor_callproc_eval.
    eexists. split; [reflexivity|]. split; [done|].
    revert Hinit. clear. destruct s as [cls lo lg mt cc q ts clk tk nl tr].
    unfold connection_initialize. destruct cls, logobj; by intros [= <-].
Qed.

Lemma C7_witness :
  use_cursor (CCallproc "myproc" VNone select_one)
    (new_connection MinTimeLoggingConnectionClass clock_150ms posix_linesep)
  = (new_connection MinTimeLoggingConnectionClass clock_150ms posix_linesep,
     Raise not_initialized) ∧
  ∃ s2, use_cursor (CCallproc "myproc" VNone select_one)
          (connection_initialize (FileObj []) 0
             (new_connection MinTimeLoggingConnectionClass clock_150ms
                posix_linesep)).1
        = (s2, Raise (NameError "var")) ∧
        ltrace s2 =
          ltrace (new_connection MinTimeLoggingConnectionClass clock_150ms
                    posix_linesep) ∧
        _logobj s2 = Some (FileObj []).
Proof.
  destruct (C7_uninitialized_connection_fails
              (new_connection MinTimeLoggingConnectionClass clock_150ms
                 posix_linesep)
              (CCallproc "myproc" VNone select_one) (FileObj []) 0)
    as (Hfail & _ & _ & _ & _ & Hcallproc).
  - reflexivity.
  - split; [exact Hfail|].
    apply (Hcallproc eq_refl "myproc" VNone select_one eq_refl).
Defined.

(** *** The timed cursor's [callproc] *)

(** C8. The code at work: [MinTimeLoggingCursor.callproc] records the
    timestamp and then raises [NameError] for the unbound name [var]
    before anything is delegated, whatever the arguments and whatever the
    primitive would have answered; no primitive is invoked and nothing is
    logged. *)
Theorem C8_timed_callproc_raises_NameError :
  ∀ (s : lstate) (procname : string) (vars : value) (out : prim_outcome),
    MinTimeLoggingCursor_callproc procname vars out s =
      (set_timestamp (Some (clock s (ticks s))) (tick s),
       Raise (NameError "var")) ∧
    ltrace (MinTimeLoggingCursor_callproc procname vars out s).1 = ltrace s ∧
    _logobj (MinTimeLoggingCursor_callproc procname vars out s).1 = _logobj s.
Proof. intros s procname vars out. by vm_compute. Qed.

(** ** Further properties of [DictRow] *)

Lemma last_pos_None_iff n cols :
  last_pos n cols = None ↔ n ∉ col_name <$> cols.
Proof.
  split.
  - intros Hl Hin. apply list_elem_of_lookup in Hin as [k Hk].
    rewrite list_lookup_fmap in Hk. by destruct (last_pos_absent _ _ Hl k).
  - intros Hnot. destruct (last_pos n cols) as [j|] eqn:Hl; [|done].
    destruct Hnot. apply last_pos_lookup in Hl as [Hj _].
    apply list_elem_of_lookup. exists j. by rewrite list_lookup_fmap.
Qed.

Lemma last_pos_Some_iff n cols :
  is_Some (last_pos n cols) ↔ n ∈ col_name <$> cols.
Proof.
  destruct (last_pos n cols) as [j|] eqn:Hl.
  - split; [|by eexists]. intros _.
    apply last_pos_lookup in Hl as [Hj _].
    apply list_elem_of_lookup. exists j. by rewrite list_lookup_fmap.
  - split; [by intros [? ?]|]. intros Hin.
    by apply last_pos_None_iff in Hl.
Qed.

(** A row of an execution, as a fetch hands it over. *)
Lemma row_after_execute s0 out cols fs s' rows dr :
  eo_description out = Some cols →
  run_fetches fs (DictCursor_execute out s0).1 = (s', rows) →
  Row dr ∈ rows →
  length (elems dr) = length cols ∧
  heap s' !! _index dr = Some (built_index cols).
Proof.
  intros Hd Hrun Hx.
  destruct (rows_after_execute _ _ _ _ _ _ _ Hd Hrun Hx)
    as (dr' & [= <-] & Hlen & _ & Hh).
  by split.
Qed.

Lemma list_getitem_out_of_range l i :
  (Z.of_nat (length l) <= i ∨ i < - Z.of_nat (length l)) →
  list_getitem l i = Raise IndexError.
Proof.
  intros Hi. unfold list_getitem.
  destruct (i <? 0) eqn:H0.
  - apply Z.ltb_lt in H0.
    destruct (i + Z.of_nat (length l) <? 0) eqn:H1; [done|].
    apply Z.ltb_ge in H1. lia.
  - rewrite H0. simpl. destruct (Z.of_nat (length l) <=? i) eqn:H1; [done|].
    apply Z.leb_gt in H1. apply Z.ltb_ge in H0. lia.
Qed.

(** X1. [DictRow.get] on a row fetched after an execution: for a name of
    one of the statement's columns it returns what [row[name]] returns,
    the value at the last column of that name; for any other name
    [row[name]] raises [KeyError] and [get] returns the default; for an
    integer position outside the row [get] returns the default as well. *)
Theorem X1_get_returns_value_or_default :
  ∀ (s0 : state) (out : exec_outcome) (cols : list column)
    (fs : list fetch_op) (s' : state) (rows : list fetched) (dr : DictRow)
    (default : value),
    eo_description out = Some cols →
    run_fetches fs (DictCursor_execute out s0).1 = (s', rows) →
    Row dr ∈ rows →
    (∀ n, n ∈ col_name <$> cols →
       ∃ j v, last_pos n cols = Some j ∧ elems dr !! j = Some v ∧
              DictRow_getitem (heap s') dr (KStr n) = Ok v ∧
              DictRow_get (heap s') dr (KStr n) default = v) ∧
    (∀ n, n ∉ col_name <$> cols →
       DictRow_getitem (heap s') dr (KStr n) = Raise (KeyError n) ∧
       DictRow_get (heap s') dr (KStr n) default = default) ∧
    (∀ i, Z.of_nat (length cols) <= i ∨ i < - Z.of_nat (length cols) →
       DictRow_getitem (heap s') dr (KInt i) = Raise IndexError ∧
       DictRow_get (heap s') dr (KInt i) default = default).
Proof.
  intros s0 out cols fs s' rows dr default Hd Hrun Hx.
  destruct (row_after_execute _ _ _ _ _ _ _ Hd Hrun Hx) as [Hlen Hh].
  split; [|split].
  - intros n Hn. apply last_pos_Some_iff in Hn as [j Hj].
    pose proof (last_pos_lt _ _ _ Hj) as Hlt.
    destruct (getitem_in_range (heap s') dr j) as (v & Hv & Hget); [lia|].
    exists j, v. split; [done|]. split; [done|].
    unfold DictRow_get.
    by rewrite (getitem_built_index _ _ cols), Hj, Hget.
  - intros n Hn. apply last_pos_None_iff in Hn.
    unfold DictRow_get. by rewrite (getitem_built_index _ _ cols), Hn.
  - intros i Hi. unfold DictRow_get, DictRow_getitem.
    rewrite list_getitem_out_of_range; [done|]. by rewrite Hlen.
Qed.

Lemma X1_witness :
  (∃ j v, last_pos "name" two_columns = Some j ∧
          elems (MkDictRow 0 [VInt 2; VStr "b"]) !! j = Some v ∧
          DictRow_getitem (heap after_select_two)
            (MkDictRow 0 [VInt 2; VStr "b"]) (KStr "name") = Ok v ∧
          DictRow_get (heap after_select_two)
            (MkDictRow 0 [VInt 2; VStr "b"]) (KStr "name") VNone = v) ∧
  DictRow_get (heap after_select_two) (MkDictRow 0 [VInt 2; VStr "b"])
    (KStr "age") (VInt 0) = VInt 0 ∧
  DictRow_get (heap after_select_two) (MkDictRow 0 [VInt 2; VStr "b"])
    (KInt 2) (VInt 0) = VInt 0.
Proof.
  split; [|split].
  - destruct (X1_get_returns_value_or_default new_cursor select_two
                two_columns [Fetchall] after_select_two rows_two
                (MkDictRow 0 [VInt 2; VStr "b"]) VNone) as (Hin & _ & _).
    + reflexivity.
    + vm_compute. reflexivity.
    + unfold rows_two. apply list_elem_of_further, list_elem_of_here.
    + apply Hin. simpl. apply list_elem_of_further, list_elem_of_here.
  - destruct (X1_get_returns_value_or_default new_cursor select_two
                two_columns [Fetchall] after_select_two rows_two
                (MkDictRow 0 [VInt 2; VStr "b"]) (VInt 0)) as (_ & Hout & _).
    + reflexivity.
    + vm_compute. reflexivity.
    + unfold rows_two. apply list_elem_of_further, list_elem_of_here.
    + apply Hout. simpl. intros Hin.
      apply elem_of_cons in Hin as [Hin|Hin]; [discriminate|].
      apply elem_of_cons in Hin as [Hin|Hin]; [discriminate|].
      by apply elem_of_nil in Hin.
  - destruct (X1_get_returns_value_or_default new_cursor select_two
                two_columns [Fetchall] after_select_two rows_two
                (MkDictRow 0 [VInt 2; VStr "b"]) (VInt 0)) as (_ & _ & Hint).
    + reflexivity.
    + vm_compute. reflexivity.
    + unfold rows_two. apply list_elem_of_further, list_elem_of_here.
    + apply Hint. left. simpl. lia.
Defined.

(** X2. On a row fetched after an execution, [has_key] is true exactly for
    the names of the statement's columns, and [keys] lists exactly those
    names, each once even when several columns share it. *)
Theorem X2_keys_are_the_column_names :
  ∀ (s0 : state) (out : exec_outcome) (cols : list column)
    (fs : list fetch_op) (s' : state) (rows : list fetched) (dr : DictRow),
    eo_description out = Some cols →
    run_fetches fs (DictCursor_execute out s0).1 = (s', rows) →
    Row dr ∈ rows →
    (∀ n, DictRow_has_key (heap s') dr n =
          Ok (bool_decide (n ∈ col_name <$> cols))) ∧
    ∃ ks, DictRow_keys (heap s') dr = Ok ks ∧ NoDup ks ∧
          ∀ n, n ∈ ks ↔ n ∈ col_name <$> cols.
Proof.
  intros s0 out cols fs s' rows dr Hd Hrun Hx.
  destruct (row_after_execute _ _ _ _ _ _ _ Hd Hrun Hx) as [Hlen Hh].
  split.
  - intros n. unfold DictRow_has_key. rewrite Hh, built_index_lookup.
    destruct (last_pos n cols) as [j|] eqn:Hl.
    + rewrite bool_decide_eq_true_2; [done|].
      apply last_pos_Some_iff. by rewrite Hl.
    + rewrite bool_decide_eq_false_2; [done|]. by apply last_pos_None_iff.
  - unfold DictRow_keys, dict_items. rewrite Hh. eexists. split; [done|].
    split; [apply NoDup_fst_map_to_list|].
    intros n. rewrite <- last_pos_Some_iff, <- built_index_lookup.
    rewrite list_elem_of_fmap. split.
    + intros ([n' p] & -> & Hin). apply elem_of_map_to_list in Hin.
      by eexists.
    + intros [p Hp]. exists (n, p). split; [done|].
      by apply elem_of_map_to_list.
Qed.

Lemma X2_witness :
  DictRow_has_key (heap after_select_dup)
    (MkDictRow 0 [VInt 1; VStr "a"; VInt 5]) "id" =
    Ok (bool_decide ("id" ∈ col_name <$> dup_columns)) ∧
  ∃ ks, DictRow_keys (heap after_select_dup)
          (MkDictRow 0 [VInt 1; VStr "a"; VInt 5]) = Ok ks ∧ NoDup ks ∧
        ∀ n, n ∈ ks ↔ n ∈ col_name <$> dup_columns.
Proof.
  destruct (X2_keys_are_the_column_names new_cursor select_dup dup_columns
              [Fetchone] after_select_dup [dup_row]
              (MkDictRow 0 [VInt 1; VStr "a"; VInt 5])) as [Hhas Hkeys].
  - reflexivity.
  - vm_compute. reflexivity.
  - apply list_elem_of_here.
  - split; [apply Hhas|exact Hkeys].
Defined.

Lemma items_loop_spec l ps :
  (∀ n p, (n, p) ∈ ps → (p < length l)%nat) →
  ∃ res, items_loop l ps = Ok res ∧ res.*1 = ps.*1 ∧
         ∀ n v, (n, v) ∈ res ↔ ∃ p, (n, p) ∈ ps ∧ l !! p = Some v.
Proof.
  induction ps as [|[n0 p0] ps IH]; intros Hin; simpl.
  - exists []. split; [done|]. split; [done|]. intros n v. split.
    + intros H. by apply elem_of_nil in H.
    + intros (p & H & _). by apply elem_of_nil in H.
  - destruct IH as (res & Hres & Hfst & Hmem).
    { intros n p Hnp. apply (Hin n). by apply list_elem_of_further. }
    assert (p0 < length l)%nat as Hp0 by (apply (Hin n0), list_elem_of_here).
    destruct (lookup_lt_is_Some_2 _ _ Hp0) as [x Hx].
    rewrite (list_getitem_nat _ _ _ Hx), Hres.
    exists ((n0, x) :: res). split; [done|].
    split; [simpl; f_equal; exact Hfst|].
    intros n v. rewrite elem_of_cons, Hmem. split.
    + intros [[= -> ->]|(p & Hp & Hv)].
      * exists p0. split; [apply list_elem_of_here|done].
      * exists p. split; [by apply list_elem_of_further|done].
    + intros (p & Hp & Hv). apply elem_of_cons in Hp as [[= -> ->]|Hp].
      * left. congruence.
      * right. by exists p.
Qed.

(** X3. On a row fetched after an execution, [items] does not raise; it
    returns one pair per key, in the order of [keys], and pairs each name
    with exactly the value that [row[name]] returns, a member of
    [values]. *)
Theorem X3_items_pairs_keys_with_values :
  ∀ (s0 : state) (out : exec_outcome) (cols : list column)
    (fs : list fetch_op) (s' : state) (rows : list fetched) (dr : DictRow),
    eo_description out = Some cols →
    run_fetches fs (DictCursor_execute out s0).1 = (s', rows) →
    Row dr ∈ rows →
    ∃ l, DictRow_items (heap s') dr = Ok l ∧
         DictRow_keys (heap s') dr = Ok (l.*1) ∧
         (∀ n v, (n, v) ∈ l ↔
                 DictRow_getitem (heap s') dr (KStr n) = Ok v) ∧
         (∀ n v, (n, v) ∈ l → v ∈ DictRow_values dr) ∧
         length (DictRow_values dr) = length cols.
Proof.
  intros s0 out cols fs s' rows dr Hd Hrun Hx.
  destruct (row_after_execute _ _ _ _ _ _ _ Hd Hrun Hx) as [Hlen Hh].
  destruct (items_loop_spec (elems dr) (dict_items (built_index cols)))
    as (l & Hl & Hfst & Hmem).
  { intros n p Hnp. apply elem_of_map_to_list in Hnp.
    rewrite built_index_lookup in Hnp. apply last_pos_lt in Hnp. lia. }
  exists l. unfold DictRow_items, DictRow_keys. rewrite Hh.
  split; [done|]. split; [by rewrite Hfst|]. split; [|split; [|done]].
  - intros n v. rewrite Hmem, (getitem_built_index _ _ cols); [|done..].
    split.
    + intros (p & Hp & Hv). apply elem_of_map_to_list in Hp.
      rewrite built_index_lookup in Hp. rewrite Hp.
      by apply list_getitem_nat.
    + destruct (last_pos n cols) as [j|] eqn:Hj; [|done].
      intros Hget. exists j. split.
      * apply elem_of_map_to_list. by rewrite built_index_lookup.
      * pose proof (last_pos_lt _ _ _ Hj) as Hlt.
        destruct (getitem_in_range (heap s') dr j) as (v' & Hv' & Hget');
          [lia|]. congruence.
  - intros n v Hnv. apply Hmem in Hnv as (p & _ & Hv).
    unfold DictRow_values. by eapply list_elem_of_lookup_2.
Qed.

Lemma X3_witness :
  ∃ l, DictRow_items (heap after_select_dup)
         (MkDictRow 0 [VInt 1; VStr "a"; VInt 5]) = Ok l ∧
       DictRow_keys (heap after_select_dup)
         (MkDictRow 0 [VInt 1; VStr "a"; VInt 5]) = Ok (l.*1) ∧
       (∀ n v, (n, v) ∈ l ↔
               DictRow_getitem (heap after_select_dup)
                 (MkDictRow 0 [VInt 1; VStr "a"; VInt 5]) (KStr n) = Ok v) ∧
       (∀ n v, (n, v) ∈ l →
               v ∈ DictRow_values (MkDictRow 0 [VInt 1; VStr "a"; VInt 5])) ∧
       length (DictRow_values (MkDictRow 0 [VInt 1; VStr "a"; VInt 5])) =
         length dup_columns.
Proof.
  apply (X3_items_pairs_keys_with_values new_cursor select_dup dup_columns
           [Fetchone] after_select_dup [dup_row]).
  - reflexivity.
  - vm_compute. reflexivity.
  - apply list_elem_of_here.
Defined.

(** ** Further properties of [DictCursor] *)

Lemma do_fetch_no_description f s :
  description s = None → do_fetch f s = (s, Raise no_results).
Proof.
  intros Hd. destruct f as [|size| |]; simpl;
    unfold DictCursor_fetchone, DictCursor_fetchmany, DictCursor_fetchall,
      DictCursor_next, _cursor_fetchone, _cursor_fetchmany, _cursor_fetchall;
    unfold_M; by rewrite Hd.
Qed.

Lemma index_current_execute out s :
  index_current (DictCursor_execute out s).1.
Proof.
  destruct (row_factory_after_execute out s) as (Hf & Hi & Hq & Hh & Hd).
  split; [by right|]. split.
  - intros _. split; [done|]. rewrite Hi. by eexists.
  - intros a. rewrite Hi. intros [= <-]. rewrite Hh, length_app. simpl.
    split; [lia|]. left. split; [done|].
    by rewrite lookup_app_r, Nat.sub_diag.
Qed.

Lemma index_current_fetch f s s' r :
  index_current s → do_fetch f s = (s', r) →
  index_current s' ∧ ∀ x, x ∈ rows_of r → ∃ dr, x = Row dr.
Proof.
  intros (Hflag & Hdesc & Hidx) Hdo.
  pose proof (do_fetch_spec _ _ _ _ Hdo)
    as ((Hd & Hi & Hf & _ & Hl) & Heff & Hrows).
  split.
  - destruct Heff as [Hq' Hh' Hb|a' cols' H1 H2 H3 H4 H5 H6 H7].
    + split; [by rewrite Hq'|]. split; [by rewrite Hd, Hf, Hi|].
      intros a. rewrite Hi, Hl, Hq', Hh', Hd. apply Hidx.
    + split; [by left|]. split; [by rewrite Hd, Hf, Hi|].
      intros a. rewrite Hi, H2. intros [= <-].
      destruct (Hidx _ H2) as [Hlt [[_ Hempty]|[Hq _]]]; [|lia].
      split; [lia|]. right. split; [done|]. exists cols'.
      rewrite Hd. split; [done|]. split; [done|].
      by rewrite H6, list_lookup_alter_eq, Hempty.
  - intros x Hx. destruct r as [rows|e]; [|by apply elem_of_nil in Hx].
    destruct (Hrows _ eq_refl) as [Hall _]. rewrite Forall_forall in Hall.
    specialize (Hall _ Hx). destruct x as [vs|dr]; [|by eexists].
    simpl in Hall. destruct (description s) eqn:Hds.
    + destruct Hdesc as [Hfac _]; [by eexists|]. congruence.
    + rewrite (do_fetch_no_description f s Hds) in Hdo. by injection Hdo.
Qed.

Lemma index_current_call c s s' r :
  index_current s → do_call c s = (s', r) →
  index_current s' ∧ ∀ x, x ∈ rows_of r → ∃ dr, x = Row dr.
Proof.
  intros Hinv. destruct c as [out|out|f].
  - rewrite do_call_execute. intros [= <- <-].
    split; [apply index_current_execute|].
    intros x Hx. destruct (eo_result out); by apply elem_of_nil in Hx.
  - rewrite do_call_callproc. intros [= <- <-].
    split; [apply index_current_execute|].
    intros x Hx. destruct (eo_result out); by apply elem_of_nil in Hx.
  - by apply index_current_fetch.
Qed.

Lemma index_current_run cs s :
  index_current s →
  index_current (run cs s).1 ∧ ∀ x, x ∈ (run cs s).2 → ∃ dr, x = Row dr.
Proof.
  revert s. induction cs as [|c cs IH]; intros s Hinv.
  - split; [done|]. intros x Hx. by apply elem_of_nil in Hx.
  - rewrite run_cons. destruct (do_call c s) as [s1 r] eqn:Hdo.
    destruct (index_current_call _ _ _ _ Hinv Hdo) as [Hinv1 Hrows1].
    destruct (IH s1 Hinv1) as [Hinv2 Hrows2].
    destruct (run cs s1) as [s2 rows2]. simpl in *. split; [done|].
    intros x Hx. apply elem_of_app in Hx as [Hx|Hx]; eauto.
Qed.

(** X4. Whatever sequence of [execute], [callproc] and fetch calls is made
    on a new [DictCursor], with whatever outcomes: the flag is 0 or 1; the
    dictionary the cursor refers to exists and is empty while the flag is
    1, and is exactly the index of the current descriptors once the flag
    is 0; and every row handed to the caller is a [DictRow], never a
    plain tuple. *)
Theorem X4_index_is_never_stale :
  ∀ (cs : list call),
    index_current (run cs new_cursor).1 ∧
    ∀ x, x ∈ (run cs new_cursor).2 → ∃ dr, x = Row dr.
Proof.
  intros cs. apply index_current_run.
  split; [by left|]. split; [by intros [? ?]|]. by intros a.
Qed.

Lemma X4_witness :
  index_current
    (run [Execute select_two; Fetch Fetchone; Execute select_three;
          Fetch Next] new_cursor).1 ∧
  ∃ dr, third_row = Row dr.
Proof.
  destruct (X4_index_is_never_stale
              [Execute select_two; Fetch Fetchone; Execute select_three;
               Fetch Next]) as [Hinv Hrows].
  split; [exact Hinv|]. apply Hrows. vm_compute.
  apply list_elem_of_further, list_elem_of_here.
Defined.

(** X5. A row keeps resolving names against the columns of its own
    execution: whatever the caller does with the cursor after the row was
    fetched (further fetches, new executions with other columns), name
    lookup on the row gives the value at the last column of that name in
    the row's statement, and [KeyError] for any other name. *)
Theorem X5_old_rows_keep_their_columns :
  ∀ (s0 : state) (out : exec_outcome) (cols : list column)
    (fs : list fetch_op) (s1 : state) (rows : list fetched) (dr : DictRow)
    (cs : list call) (n : string),
    eo_description out = Some cols →
    run_fetches fs (DictCursor_execute out s0).1 = (s1, rows) →
    Row dr ∈ rows →
    DictRow_getitem (heap (run cs s1).1) dr (KStr n) =
      match last_pos n cols with
      | Some j => list_getitem (elems dr) (Z.of_nat j)
      | None => Raise (KeyError n)
      end.
Proof.
  intros s0 out cols fs s1 rows dr cs n Hd Hrun Hx.
  destruct (rows_after_execute _ _ _ _ _ _ _ Hd Hrun Hx)
    as (dr' & [= <-] & Hlen & Hi & Hh).
  destruct (executed_after_execute out s0 cols Hd) as (Hex & Hpend & _).
  destruct (ready_run_fetches _ _ _ _ _ _ Hex (or_introl Hpend) Hrun)
    as ((Hd1 & _) & _ & _ & Hready & _).
  assert (stable (_index dr) s1) as Hst.
  { pose proof (wf_state_run (Fetch <$> fs) _ _ _
                  (wf_state_execute out s0) Hrun) as Hwf.
    split; [by apply Hwf|]. split; [done|]. intros _.
    destruct Hready as [_ Hq].
    { left. intros ->. by apply elem_of_nil in Hx. }
    unfold settled. rewrite Hd1.
    destruct Hq as [Hq|[_ ->]]; [left; lia|by right]. }
  destruct (run cs s1) as [s3 rows3] eqn:Hcs.
  destruct (stable_run _ _ _ _ _ Hst Hcs) as [_ Hkeep]. cbn [fst].
  rewrite (getitem_built_index _ _ cols); [done|congruence|done].
Qed.

Lemma X5_witness :
  DictRow_getitem
    (heap (run [Execute select_three; Fetch Fetchone] after_select_two).1)
    (MkDictRow 0 [VInt 1; VStr "a"]) (KStr "name") =
  match last_pos "name" two_columns with
  | Some j => list_getitem (elems (MkDictRow 0 [VInt 1; VStr "a"])) (Z.of_nat j)
  | None => Raise (KeyError "name")
  end.
Proof.
  apply (X5_old_rows_keep_their_columns new_cursor select_two two_columns
           [Fetchall] after_select_two rows_two).
  - reflexivity.
  - vm_compute. reflexivity.
  - apply list_elem_of_here.
Defined.

(** X6. [callproc] prepares the cursor as [execute] does: the rows fetched
    after a procedure call have one position per column of its result and
    resolve names against those columns. *)
Theorem X6_callproc_rows_resolve_names :
  ∀ (s0 : state) (out : exec_outcome) (cols : list column)
    (fs : list fetch_op) (dr : DictRow) (n : string),
    eo_description out = Some cols →
    Row dr ∈ (run (Callproc out :: (Fetch <$> fs)) s0).2 →
    length (elems dr) = length cols ∧
    DictRow_getitem (heap (run (Callproc out :: (Fetch <$> fs)) s0).1) dr
                    (KStr n) =
      match last_pos n cols with
      | Some j => list_getitem (elems dr) (Z.of_nat j)
      | None => Raise (KeyError n)
      end.
Proof.
  intros s0 out cols fs dr n Hd. rewrite run_cons, do_call_callproc.
  destruct (run (Fetch <$> fs) (DictCursor_execute out s0).1)
    as [s' rows] eqn:Hrun.
  assert (∀ r : result value,
            rows_of match r with Ok _ => Ok [] | Raise e => Raise e end =
            @nil fetched) as Hnil by (by intros [|]).
  rewrite Hnil. cbn [fst snd app]. intros Hx.
  destruct (row_after_execute _ _ _ _ _ _ _ Hd Hrun Hx) as [Hlen Hh].
  split; [done|]. by rewrite (getitem_built_index _ _ cols).
Qed.

Lemma X6_witness :
  length (elems (MkDictRow 0 [VInt 1; VStr "a"])) = length two_columns ∧
  DictRow_getitem
    (heap (run (Callproc select_two :: (Fetch <$> [Fetchone])) new_cursor).1)
    (MkDictRow 0 [VInt 1; VStr "a"]) (KStr "name") =
  match last_pos "name" two_columns with
  | Some j => list_getitem (elems (MkDictRow 0 [VInt 1; VStr "a"])) (Z.of_nat j)
  | None => Raise (KeyError "name")
  end.
Proof.
  apply (X6_callproc_rows_resolve_names new_cursor select_two two_columns
           [Fetchone]).
  - reflexivity.
  - vm_compute. apply list_elem_of_here.
Defined.

Lemma run_fetches_no_descriptors fs s s' rows :
  truthy_list (description s) = false →
  run_fetches fs s = (s', rows) →
  heap s' = heap s ∧ builds (trace s') = builds (trace s) ∧
  query_executed s' = query_executed s.
Proof.
  unfold run_fetches. revert s s' rows.
  induction fs as [|f fs IH]; intros s s' rows Hd; simpl.
  - by intros [= <- _].
  - destruct (do_fetch f s) as [s1 r] eqn:Hdo.
    destruct (run _ s1) as [s2 rows2] eqn:Hrun. intros [= <- _].
    apply do_fetch_spec in Hdo as ((Hd1 & _) & Heff & _).
    destruct Heff as [Hq' Hh' Hb|a' cols' H1 H2 H3 H4 H5 H6 H7].
    + apply IH in Hrun as (Hh2 & Hb2 & Hq2); [|by rewrite Hd1].
      repeat split; congruence.
    + rewrite H3 in Hd. by destruct cols'.
Qed.

Lemma run_fetches_no_results fs s :
  description s = None → run_fetches fs s = (s, []).
Proof.
  unfold run_fetches. intros Hd. induction fs as [|f fs IH]; [done|].
  rewrite fmap_cons, run_cons. simpl do_call.
  by rewrite (do_fetch_no_description f s Hd), IH.
Qed.

Lemma fetch_methods_no_description s :
  description s = None →
  DictCursor_fetchone s = (s, Raise no_results) ∧
  (∀ size, DictCursor_fetchmany size s = (s, Raise no_results)) ∧
  DictCursor_fetchall s = (s, Raise no_results) ∧
  DictCursor_next s = (s, Raise no_results).
Proof.
  intros Hd.
  unfold DictCursor_fetchone, DictCursor_fetchmany, DictCursor_fetchall,
    DictCursor_next, _cursor_fetchone, _cursor_fetchmany, _cursor_fetchall.
  unfold_M. by rewrite Hd.
Qed.

(** X7. After a statement without column descriptors (none at all, or an
    empty list) no fetch builds an index: the build stays pending, no
    dictionary changes, and name lookup on any row handed out raises
    [KeyError].  With no descriptors at all, every fetch method raises the
    primitive's [ProgrammingError] and leaves the cursor exactly as
    [execute] left it, so that in any sequence of fetch calls each call
    raises and no row is handed out. *)
Theorem X7_no_descriptors_no_index :
  ∀ (s0 : state) (out : exec_outcome) (fs : list fetch_op) (s' : state)
    (rows : list fetched),
    truthy_list (eo_description out) = false →
    run_fetches fs (DictCursor_execute out s0).1 = (s', rows) →
    heap s' = heap (DictCursor_execute out s0).1 ∧
    builds (trace s') = builds (trace (DictCursor_execute out s0).1) ∧
    query_executed s' = 1 ∧
    (eo_description out = None →
       rows = [] ∧ s' = (DictCursor_execute out s0).1 ∧
       DictCursor_fetchone (DictCursor_execute out s0).1 =
         ((DictCursor_execute out s0).1, Raise no_results) ∧
       (∀ size, DictCursor_fetchmany size (DictCursor_execute out s0).1 =
                  ((DictCursor_execute out s0).1, Raise no_results)) ∧
       DictCursor_fetchall (DictCursor_execute out s0).1 =
         ((DictCursor_execute out s0).1, Raise no_results) ∧
       DictCursor_next (DictCursor_execute out s0).1 =
         ((DictCursor_execute out s0).1, Raise no_results) ∧
       ∀ f, do_fetch f (DictCursor_execute out s0).1 =
              ((DictCursor_execute out s0).1, Raise no_results)) ∧
    ∀ dr n, Row dr ∈ rows →
      DictRow_getitem (heap s') dr (KStr n) = Raise (KeyError n).
Proof.
  intros s0 out fs s' rows Hd Hrun.
  destruct (row_factory_after_execute out s0) as (Hf & Hi & Hq & Hh & Hds).
  destruct (run_fetches_no_descriptors _ _ _ _ ltac:(by rewrite Hds) Hrun)
    as (Hh' & Hb' & Hq').
  split; [done|]. split; [done|]. split; [congruence|]. split.
  - intros Hnone.
    assert (description (DictCursor_execute out s0).1 = None) as Hdn
      by congruence.
    rewrite run_fetches_no_results in Hrun; [|done].
    injection Hrun as <- <-. split; [done|]. split; [done|].
    destruct (fetch_methods_no_description _ Hdn) as (H1 & H2 & H3 & H4).
    split; [done|]. split; [done|]. split; [done|]. split; [done|].
    intros f. by apply do_fetch_no_description.
  - intros dr n Hx.
    apply run_fetches_builds in Hrun as (_ & Hgood & _).
    rewrite Forall_forall in Hgood. destruct (Hgood _ Hx) as [Hidx _].
    unfold DictRow_getitem, dict_getitem.
    assert (_index dr = length (heap s0)) as -> by congruence.
    rewrite Hh', Hh, lookup_app_r, Nat.sub_diag; [|done]. simpl.
    by rewrite lookup_empty.
Qed.

(** A statement without tabular result, after one with two columns. *)
Lemma X7_witness :
  query_executed
    (run_fetches [Fetchone; Fetchall]
       (DictCursor_execute (ExecOutcome None [] (Ok VNone))
          after_select_two).1).1 = 1 ∧
  DictCursor_fetchone
    (DictCursor_execute (ExecOutcome None [] (Ok VNone)) after_select_two).1 =
  ((DictCursor_execute (ExecOutcome None [] (Ok VNone)) after_select_two).1,
   Raise no_results) ∧
  DictCursor_next
    (DictCursor_execute (ExecOutcome None [] (Ok VNone)) after_select_two).1 =
  ((DictCursor_execute (ExecOutcome None [] (Ok VNone)) after_select_two).1,
   Raise no_results).
Proof.
  destruct (X7_no_descriptors_no_index after_select_two
              (ExecOutcome None [] (Ok VNone)) [Fetchone; Fetchall]
              (run_fetches [Fetchone; Fetchall]
                 (DictCursor_execute (ExecOutcome None [] (Ok VNone))
                    after_select_two).1).1
              (run_fetches [Fetchone; Fetchall]
                 (DictCursor_execute (ExecOutcome None [] (Ok VNone))
                    after_select_two).1).2)
    as (_ & _ & Hq & Hnone & _).
  - reflexivity.
  - vm_compute. reflexivity.
  - destruct (Hnone eq_refl) as (_ & _ & Hone & _ & _ & Hnext & _).
    split; [exact Hq|]. split; [exact Hone|exact Hnext].
Defined.

(** *** The fetch methods hand out the same rows *)

Lemma build_row_executed cols a t s :
  executed cols a s → build_row t s = (s, Ok (make_row a (length cols) t)).
Proof.
  intros (Hd & Hi & Hf). unfold build_row, DictRow_init, make_row.
  rewrite Hf, Hi, Hd. simpl. by rewrite length_replicate.
Qed.

Lemma build_rows_executed cols a ts s :
  executed cols a s →
  build_rows ts s = (s, Ok (make_row a (length cols) <$> ts)).
Proof.
  intros Hex. induction ts as [|t ts IH]; [done|].
  simpl. unfold_M. by rewrite (build_row_executed cols a), IH.
Qed.

Lemma executed_set_pending cols a p s :
  executed cols a s → executed cols a (set_pending p s).
Proof. done. Qed.

Lemma check_index_after cols a s :
  executed cols a s →
  ∃ s', check_index s = (s', Ok tt) ∧ pending s' = pending s ∧
        executed cols a s'.
Proof.
  intros Hex. pose proof Hex as (Hd & Hi & Hf).
  destruct (check_index_ok s a Hi) as [s' Hc]. exists s'.
  split; [done|].
  apply check_index_inv in Hc as ((Hd' & Hi' & Hf' & _) & Hp & _).
  split; [done|]. unfold executed. by rewrite Hd', Hi', Hf'.
Qed.

Lemma DictCursor_fetchall_rows cols a s :
  executed cols a s →
  ∃ s', DictCursor_fetchall s =
          (s', Ok (make_row a (length cols) <$> pending s)) ∧
        pending s' = [] ∧ executed cols a s'.
Proof.
  intros Hex. pose proof Hex as (Hd & _).
  destruct (check_index_after cols a (set_pending [] s)) as (s' & Hc & Hp & Hex');
    [done|].
  exists s'. split; [|done].
  unfold DictCursor_fetchall, _cursor_fetchall. unfold_M. rewrite Hd.
  by rewrite (build_rows_executed cols a), Hc.
Qed.

Lemma DictCursor_fetchmany_rows cols a k s :
  executed cols a s →
  ∃ s', DictCursor_fetchmany (Some k) s =
          (s', Ok (make_row a (length cols) <$> take k (pending s))) ∧
        pending s' = drop k (pending s) ∧ executed cols a s'.
Proof.
  intros Hex. pose proof Hex as (Hd & _).
  destruct (check_index_after cols a (set_pending (drop k (pending s)) s))
    as (s' & Hc & Hp & Hex'); [done|].
  exists s'. split; [|done].
  unfold DictCursor_fetchmany, _cursor_fetchmany. unfold_M. rewrite Hd.
  simpl. by rewrite (build_rows_executed cols a), Hc.
Qed.

Lemma DictCursor_next_make_row cols a s t rest :
  executed cols a s → pending s = t :: rest →
  ∃ s1, DictCursor_next s = (s1, Ok (make_row a (length cols) t)) ∧
        pending s1 = rest ∧ executed cols a s1.
Proof.
  intros Hex Hp. pose proof Hex as (Hd & _).
  destruct (check_index_after cols a (set_pending rest s))
    as (s1 & Hc & Hp1 & Hex1); [done|].
  exists s1. split; [|done].
  unfold DictCursor_next, _cursor_fetchone. unfold_M. rewrite Hd, Hp.
  by rewrite (build_row_executed cols a), Hc.
Qed.

Lemma iterate_rows cols a ts s :
  executed cols a s → pending s = ts →
  (iterate (S (length ts)) s).2 = Some (make_row a (length cols) <$> ts).
Proof.
  revert s. induction ts as [|t ts IH]; intros s Hex Hp.
  - pose proof Hex as (Hd & _).
    simpl. by rewrite (DictCursor_next_exhausted s cols Hd Hp).
  - destruct (DictCursor_next_make_row _ _ _ _ _ Hex Hp)
      as (s1 & Hnext & Hp1 & Hex1).
    specialize (IH s1 Hex1 Hp1).
    change (iterate (S (length (t :: ts))) s) with
      (match DictCursor_next s with
       | (s1, Ok r) =>
           let (s2, o) := iterate (S (length ts)) s1 in
           (s2, (λ rows, r :: rows) <$> o)
       | (s1, Raise StopIteration) => (s1, Some [])
       | (s1, Raise _) => (s1, None)
       end).
    rewrite Hnext. destruct (iterate (S (length ts)) s1) as [s2 o].
    simpl in *. by rewrite IH.
Qed.

(** X8. The ways of fetching agree.  After an execution with column
    descriptors, [fetchall] returns one row per result tuple, in order;
    iterating with [next] until [StopIteration] hands out the same rows;
    [fetchmany(k)] returns the first [k] of them and a following
    [fetchall] the rest; and a second [fetchall] returns the empty
    list. *)
Theorem X8_fetch_methods_agree :
  ∀ (s0 : state) (out : exec_outcome) (cols : list column) (k : nat),
    eo_description out = Some cols →
    ∃ rows,
      length rows = length (eo_rows out) ∧
      (DictCursor_fetchall (DictCursor_execute out s0).1).2 = Ok rows ∧
      (iterate (S (length (eo_rows out))) (DictCursor_execute out s0).1).2
        = Some rows ∧
      (DictCursor_fetchmany (Some k) (DictCursor_execute out s0).1).2
        = Ok (take k rows) ∧
      (DictCursor_fetchall
         (DictCursor_fetchmany (Some k) (DictCursor_execute out s0).1).1).2
        = Ok (drop k rows) ∧
      (DictCursor_fetchall
         (DictCursor_fetchall (DictCursor_execute out s0).1).1).2 = Ok [].
Proof.
  intros s0 out cols k Hd.
  destruct (executed_after_execute out s0 cols Hd) as (Hex & _ & _ & Hp).
  set (sx := (DictCursor_execute out s0).1) in *.
  set (a := length (heap s0)) in *.
  exists (make_row a (length cols) <$> eo_rows out).
  split; [by rewrite length_fmap|].
  destruct (DictCursor_fetchall_rows cols a sx Hex) as (s1 & Hall & Hp1 & Hex1).
  destruct (DictCursor_fetchmany_rows cols a k sx Hex)
    as (s2 & Hmany & Hp2 & Hex2).
  destruct (DictCursor_fetchall_rows cols a s1 Hex1) as (s3 & Hall1 & _).
  destruct (DictCursor_fetchall_rows cols a s2 Hex2) as (s4 & Hall2 & _).
  rewrite Hall, Hmany. cbn [fst snd]. rewrite Hall1, Hall2. cbn [snd].
  rewrite Hp in *. rewrite Hp1, Hp2.
  split; [done|]. split; [by apply (iterate_rows cols a)|].
  split; [by rewrite fmap_take|]. split; [by rewrite fmap_drop|done].
Qed.

Lemma X8_witness :
  ∃ rows,
    length rows = length (eo_rows select_two) ∧
    (DictCursor_fetchall (DictCursor_execute select_two new_cursor).1).2
      = Ok rows ∧
    (iterate (S (length (eo_rows select_two)))
       (DictCursor_execute select_two new_cursor).1).2 = Some rows ∧
    (DictCursor_fetchmany (Some 1%nat)
       (DictCursor_execute select_two new_cursor).1).2 = Ok (take 1 rows) ∧
    (DictCursor_fetchall
       (DictCursor_fetchmany (Some 1%nat)
          (DictCursor_execute select_two new_cursor).1).1).2
      = Ok (drop 1 rows) ∧
    (DictCursor_fetchall
       (DictCursor_fetchall (DictCursor_execute select_two new_cursor).1).1).2
      = Ok [].
Proof.
  apply (X8_fetch_methods_agree new_cursor select_two two_columns 1).
  reflexivity.
Defined.

(** *** Values *)

Lemma fill_row_prefix n t k :
  length t = n → (k ≤ n)%nat →
  foldl (λ acc i, <[i := default VNone (t !! i)]> acc)
        (replicate n VNone) (seq 0 k)
  = take k t ++ replicate (n - k) VNone.
Proof.
  intros Hlen. induction k as [|k IH]; intros Hk.
  - simpl. by rewrite Nat.sub_0_r.
  - rewrite seq_S, foldl_snoc, IH; [|lia]. simpl.
    destruct (lookup_lt_is_Some_2 t k) as [x Hx]; [lia|].
    rewrite Hx. simpl.
    rewrite insert_app_r_alt; [|rewrite length_take; lia].
    rewrite length_take, Nat.min_l, Nat.sub_diag; [|lia].
    replace (n - k)%nat with (S (n - S k)) by lia. simpl.
    rewrite (take_S_r _ _ _ Hx), <- app_assoc. done.
Qed.

Lemma fill_row_full n t :
  length t = n → fill_row n t (replicate n VNone) = t.
Proof.
  intros Hlen. unfold fill_row.
  rewrite (fill_row_prefix n t n Hlen); [|lia].
  rewrite Nat.sub_diag, take_ge; [|lia]. simpl. by rewrite app_nil_r.
Qed.

(** X9. Name lookup returns the database value.  After an execution whose
    result tuples have one field per column descriptor, [fetchall]
    returns, for each tuple, a row holding exactly the tuple's values, and
    looking a column name up on that row gives the tuple's field at the
    last column of that name. *)
Theorem X9_name_lookup_returns_tuple_field :
  ∀ (s0 : state) (out : exec_outcome) (cols : list column)
    (i : nat) (t : list value) (n : string) (j : nat),
    eo_description out = Some cols →
    Forall (λ t', length t' = length cols) (eo_rows out) →
    eo_rows out !! i = Some t →
    last_pos n cols = Some j →
    ∃ rows dr v,
      (DictCursor_fetchall (DictCursor_execute out s0).1).2 = Ok rows ∧
      rows !! i = Some (Row dr) ∧
      DictRow_values dr = t ∧
      t !! j = Some v ∧
      DictRow_getitem
        (heap (DictCursor_fetchall (DictCursor_execute out s0).1).1) dr
        (KStr n) = Ok v.
Proof.
  intros s0 out cols i t n j Hd Hall Hi Hj.
  destruct (executed_after_execute out s0 cols Hd) as (Hex & Hpend & _ & Hp).
  set (sx := (DictCursor_execute out s0).1) in *.
  set (a := length (heap s0)) in *.
  destruct (DictCursor_fetchall_rows cols a sx Hex) as (s1 & Hfetch & _ & Hex1).
  assert (length t = length cols) as Hlen.
  { rewrite Forall_forall in Hall. apply Hall.
    by eapply list_elem_of_lookup_2. }
  pose proof (last_pos_lt _ _ _ Hj) as Hlt.
  destruct (lookup_lt_is_Some_2 t j) as [v Hv]; [lia|].
  exists (make_row a (length cols) <$> eo_rows out), (MkDictRow a t), v.
  rewrite Hfetch, Hp. cbn [fst snd]. split; [done|]. split.
  - rewrite list_lookup_fmap, Hi. simpl. unfold make_row.
    by rewrite fill_row_full.
  - split; [done|]. split; [done|].
    assert (do_fetch Fetchall sx =
            (s1, Ok (make_row a (length cols) <$> pending sx))) as Hdo
      by done.
    destruct (ready_fetch _ _ _ _ _ _ Hex (or_introl Hpend) Hdo)
      as (_ & _ & Hrows).
    destruct (Hrows _ eq_refl) as [_ [Hh _]].
    rewrite (getitem_built_index _ _ cols), Hj; [|done..].
    by apply list_getitem_nat.
Qed.

Lemma X9_witness :
  ∃ rows dr v,
    (DictCursor_fetchall (DictCursor_execute select_two new_cursor).1).2
      = Ok rows ∧
    rows !! 1%nat = Some (Row dr) ∧
    DictRow_values dr = [VInt 2; VStr "b"] ∧
    [VInt 2; VStr "b"] !! 0%nat = Some v ∧
    DictRow_getitem
      (heap (DictCursor_fetchall (DictCursor_execute select_two new_cursor).1).1)
      dr (KStr "id") = Ok v.
Proof.
  apply (X9_name_lookup_returns_tuple_field new_cursor select_two two_columns
           1 [VInt 2; VStr "b"] "id" 0).
  - reflexivity.
  - repeat constructor.
  - reflexivity.
  - reflexivity.
Defined.

(** ** Further properties of [SQL_IN] *)

(** X10. When an element of the sequence cannot be adapted, [getquoted]
    raises the exception of the first such element and produces no text,
    whatever follows that element. *)
Theorem X10_getquoted_raises_first_failure :
  ∀ (V : Type) (adapt : V → result string) (pre : list V) (o : V)
    (post : list V) (qs : list string) (e : exn),
    Forall2 (λ o' q, adapt o' = Ok q) pre qs →
    adapt o = Raise e →
    SQL_IN_getquoted adapt (pre ++ o :: post) = Raise e.
Proof.
  intros V adapt pre o post qs e Hpre Ho. unfold SQL_IN_getquoted.
  assert (qobjs adapt (pre ++ o :: post) = Raise e) as ->; [|done].
  induction Hpre as [|o' q pre' qs' Hq _ IH]; simpl.
  - by rewrite Ho.
  - by rewrite Hq, IH.
Qed.

Lemma X10_witness :
  SQL_IN_getquoted adapt_small [1; 2; 30; 4] =
  Raise (ProgrammingError "can't adapt").
Proof.
  apply (X10_getquoted_raises_first_failure Z adapt_small [1; 2] 30 [4]
           ["1"; "2"]).
  - repeat constructor.
  - reflexivity.
Defined.

(** ** Further properties of the logging connections and cursors *)

(** One operation of a [LoggingCursor] on an initialized
    [LoggingConnection], with what it leaves unchanged. *)
Lemma LoggingCursor_execute_frame stmt vars out s :
  conn_class s = LoggingConnectionClass → initialized s →
  ∃ s', LoggingCursor_execute stmt vars out s = (s', po_result out) ∧
        ltrace s' = ltrace s ++ [LvExecute stmt; LvFilter (po_query out)] ∧
        sink_entries s' = sink_entries s ++ base_log_entries s (po_query out) ∧
        conn_class s' = conn_class s ∧ initialized s' ∧
        log s' = log s ∧ linesep s' = linesep s ∧
        (truthy_str (po_query out) = false → _logobj s' = _logobj s).
Proof.
  destruct s as [cls lo lg mt cc q ts clk tk nl tr].
  cbv [conn_class initialized _logobj log]. intros -> Hinit.
  rewrite LoggingCursor_execute_unfold.
  destruct lo as [[l|l]|], lg as [[]|]; try done;
    destruct (po_query out) as [[|c m]|]; unfold_log; eexists;
    (split; [reflexivity|]); cbv beta iota;
    rewrite ?app_nil_r, <- ?app_assoc; done.
Qed.

Lemma LoggingCursor_callproc_frame procname vars out s :
  conn_class s = LoggingConnectionClass → initialized s →
  ∃ s', LoggingCursor_callproc procname vars out s = (s', po_result out) ∧
        ltrace s' = ltrace s ++ [LvCallproc procname; LvFilter (po_query out)] ∧
        (truthy_str (po_query out) = false → _logobj s' = _logobj s).
Proof.
  destruct s as [cls lo lg mt cc q ts clk tk nl tr].
  cbv [conn_class initialized _logobj log]. intros -> Hinit.
  rewrite LoggingCursor_callproc_unfold.
  destruct lo as [[l|l]|], lg as [[]|]; try done;
    destruct (po_query out) as [[|c m]|]; unfold_log; eexists;
    (split; [reflexivity|]); cbv beta iota;
    rewrite ?app_nil_r, <- ?app_assoc; done.
Qed.

(** X11. No blank entries: when the wrapped primitive leaves no statement
    text in [self.query], or an empty one, [execute] and [callproc] of a
    [LoggingCursor] still call [filter] once but write nothing, to a file
    or to a logger; the caller gets the primitive's outcome. *)
Theorem X11_empty_message_is_not_written :
  ∀ (s : lstate) (stmt : string) (vars : value) (out : prim_outcome),
    conn_class s = LoggingConnectionClass →
    initialized s →
    po_query out = None ∨ po_query out = Some EmptyString →
    (∃ s', LoggingCursor_execute stmt vars out s = (s', po_result out) ∧
           _logobj s' = _logobj s ∧
           ltrace s' = ltrace s ++ [LvExecute stmt; LvFilter (po_query out)]) ∧
    (∃ s', LoggingCursor_callproc stmt vars out s = (s', po_result out) ∧
           _logobj s' = _logobj s ∧
           ltrace s' = ltrace s ++ [LvCallproc stmt; LvFilter (po_query out)]).
Proof.
  intros s stmt vars out Hcls Hinit Hq.
  assert (truthy_str (po_query out) = false) as Hfalse.
  { by destruct Hq as [-> | ->]. }
  split.
  - destruct (LoggingCursor_execute_frame stmt vars out s Hcls Hinit)
      as (s' & Hexec & Htr & _ & _ & _ & _ & _ & Hsame).
    exists s'. split; [done|]. split; [by apply Hsame|done].
  - destruct (LoggingCursor_callproc_frame stmt vars out s Hcls Hinit)
      as (s' & Hexec & Htr & Hsame).
    exists s'. split; [done|]. split; [by apply Hsame|done].
Qed.

Lemma X11_witness :
  (∃ s', LoggingCursor_execute "SELECT 1" VNone
           (PrimOutcome None (Raise (BackendError "can't adapt")))
           file_connection = (s', Raise (BackendError "can't adapt")) ∧
         _logobj s' = _logobj file_connection ∧
         ltrace s' = ltrace file_connection ++
                     [LvExecute "SELECT 1"; LvFilter None]) ∧
  (∃ s', LoggingCursor_callproc "SELECT 1" VNone
           (PrimOutcome None (Raise (BackendError "can't adapt")))
           file_connection = (s', Raise (BackendError "can't adapt")) ∧
         _logobj s' = _logobj file_connection ∧
         ltrace s' = ltrace file_connection ++
                     [LvCallproc "SELECT 1"; LvFilter None]).
Proof.
  apply (X11_empty_message_is_not_written file_connection "SELECT 1" VNone
           (PrimOutcome None (Raise (BackendError "can't adapt")))).
  - reflexivity.
  - exact I.
  - left. reflexivity.
Defined.

Lemma base_log_entries_same s s' msg :
  log s' = log s → linesep s' = linesep s →
  base_log_entries s' msg = base_log_entries s msg.
Proof. unfold base_log_entries. by intros -> ->. Qed.

(** X12. Statements executed one after the other on a [LoggingCursor] are
    logged in order: the log target receives, after what it held, the
    non-empty statement texts in the order of execution, one entry each
    (with the line separator for a file, without for a logger); [filter]
    is called once per statement, after its primitive; and the caller gets
    every primitive's own outcome, failures included. *)
Theorem X12_statements_are_logged_in_order :
  ∀ (stmts : list (string * prim_outcome)) (s : lstate),
    conn_class s = LoggingConnectionClass →
    initialized s →
    sink_entries (execute_all stmts s).1 =
      sink_entries s ++ logged_texts s stmts ∧
    (execute_all stmts s).2 = (λ so, po_result so.2) <$> stmts ∧
    ltrace (execute_all stmts s).1 =
      ltrace s ++
      flat_map (λ so, [LvExecute so.1; LvFilter (po_query so.2)]) stmts.
Proof.
  induction stmts as [|[stmt out] stmts IH]; intros s Hcls Hinit.
  - simpl. by rewrite !app_nil_r.
  - destruct (LoggingCursor_execute_frame stmt VNone out s Hcls Hinit)
      as (s1 & Hexec & Htr & Hsink & Hcls1 & Hinit1 & Hlog & Hnl & _).
    destruct (IH s1) as (Hsink' & Hres' & Htr'); [congruence|done|].
    change (execute_all ((stmt, out) :: stmts) s) with
      (let (s1, r) := LoggingCursor_execute stmt VNone out s in
       let (s2, rs) := execute_all stmts s1 in (s2, r :: rs)).
    rewrite Hexec. destruct (execute_all stmts s1) as [s2 rs].
    cbn [fst snd] in *. split; [|split].
    + rewrite Hsink', Hsink. unfold logged_texts. simpl.
      rewrite <- app_assoc. do 2 f_equal.
      apply flat_map_ext. intros so. by apply base_log_entries_same.
    + by rewrite Hres'.
    + rewrite Htr', Htr. simpl. by rewrite <- app_assoc.
Qed.

Lemma X12_witness :
  sink_entries
    (execute_all [("SELECT 1", select_one); ("SELECT 1/0", failing_statement)]
                 file_connection).1 =
    ["SELECT 1" +:+ posix_linesep; "SELECT 1/0" +:+ posix_linesep] ∧
  (execute_all [("SELECT 1", select_one); ("SELECT 1/0", failing_statement)]
               file_connection).2 =
    [Ok VNone; Raise (BackendError "division by zero")].
Proof.
  destruct (X12_statements_are_logged_in_order
              [("SELECT 1", select_one); ("SELECT 1/0", failing_statement)]
              file_connection) as (Hsink & Hres & _).
  - reflexivity.
  - exact I.
  - split; [exact Hsink|exact Hres].
Defined.

(** X13. The timed filter needs a statement text.  When the wrapped
    primitive left none in [self.query] and the elapsed time exceeds the
    threshold, [filter] fails on [msg + os.linesep]: [execute] of the
    timed cursor then raises that [TypeError] in place of the primitive's
    own result or exception, and nothing is written. *)
Theorem X13_timed_execute_without_text_raises :
  ∀ (s : lstate) (stmt : string) (vars : value) (out : prim_outcome) (T : Q),
    conn_class s = MinTimeLoggingConnectionClass →
    _mintime s = Some T →
    is_Some (log s) →
    po_query out = None →
    (T < (clock s (S (ticks s)) - clock s (ticks s)) * 1000)%Q →
    ∃ s' msg,
      MinTimeLoggingCursor_execute stmt vars out s = (s', Raise (TypeError msg)) ∧
      _logobj s' = _logobj s ∧
      ltrace s' = ltrace s ++ [LvExecute stmt; LvFilter None].
Proof.
  intros s stmt vars out T Hcls Hmin [lg Hlog] Hq Hlt.
  assert (Qle_bool ((clock s (S (ticks s)) - clock s (ticks s)) * 1000) T
          = false) as Hgt.
  { destruct (Qle_bool _ T) eqn:Hb; [|done].
    apply Qle_bool_iff in Hb. by apply Qlt_not_le in Hlt. }
  destruct s as [cls lo lg0 mt cc q ts clk tk nl tr].
  cbv [conn_class _mintime log clock ticks] in *. subst cls mt lg0.
  unfold MinTimeLoggingCursor_execute, LoggingCursor_execute, try_finally,
    prim_execute. rewrite Hq.
  destruct lg; unfold_log; rewrite Hgt; cbv beta iota delta [negb];
    eexists _, _; (split; [reflexivity|]); split; try done;
    by rewrite <- app_assoc.
Qed.

Lemma X13_witness :
  ∃ s' msg,
    MinTimeLoggingCursor_execute "SELECT 1" VNone
      (PrimOutcome None (Raise (BackendError "can't adapt")))
      (timed_connection 100) = (s', Raise (TypeError msg)) ∧
    _logobj s' = _logobj (timed_connection 100) ∧
    ltrace s' = ltrace (timed_connection 100) ++
                [LvExecute "SELECT 1"; LvFilter None].
Proof.
  apply (X13_timed_execute_without_text_raises (timed_connection 100)
           "SELECT 1" VNone
           (PrimOutcome None (Raise (BackendError "can't adapt"))) 100).
  - reflexivity.
  - reflexivity.
  - by eexists.
  - reflexivity.
  - reflexivity.
Defined.

(** X14. The cursor methods do not check the connection themselves.  On a
    connection that has no [log] method (one on which [initialize] was
    never called), [execute] and [callproc] of a [LoggingCursor] still run
    the wrapped primitive, and then raise [AttributeError] from the
    cleanup in place of the primitive's outcome; [filter] is not called
    and nothing is written. *)
Theorem X14_cursor_without_log_method :
  ∀ (s : lstate) (stmt : string) (vars : value) (out : prim_outcome),
    log s = None →
    LoggingCursor_execute stmt vars out s =
      (set_query (po_query out) (lemit (LvExecute stmt) s),
       Raise (AttributeError "log")) ∧
    LoggingCursor_callproc stmt vars out s =
      (set_query (po_query out) (lemit (LvCallproc stmt) s),
       Raise (AttributeError "log")).
Proof.
  intros s stmt vars out Hlog.
  rewrite LoggingCursor_execute_unfold, LoggingCursor_callproc_unfold.
  unfold connection_log. rewrite !bind_unfold. unfold get. simpl.
  by rewrite Hlog.
Qed.

Lemma X14_witness :
  LoggingCursor_execute "SELECT 1" VNone select_one
    (new_connection LoggingConnectionClass clock_150ms posix_linesep) =
    (set_query (Some "SELECT 1")
       (lemit (LvExecute "SELECT 1")
          (new_connection LoggingConnectionClass clock_150ms posix_linesep)),
     Raise (AttributeError "log")).
Proof.
  apply (X14_cursor_without_log_method
           (new_connection LoggingConnectionClass clock_150ms posix_linesep)
           "SELECT 1" VNone select_one).
  reflexivity.
Defined.

(** X15. [initialize] can be called again: the later call alone decides
    the log target, the method used to write to it and, on a
    [MinTimeLoggingConnection], the threshold, so that the connection is
    as if only the later call had been made. *)
Theorem X15_initialize_again_replaces_target :
  ∀ (s : lstate) (a b : sink) (m1 m2 : Q),
    connection_initialize b m2 (connection_initialize a m1 s).1 =
      connection_initialize b m2 s ∧
    initialized (connection_initialize b m2 s).1 ∧
    _logobj (connection_initialize b m2 s).1 = Some b ∧
    log (connection_initialize b m2 s).1 =
      Some (match b with
            | FileObj _ => logtofile
            | LoggerObj _ => logtologger
            end) ∧
    (conn_class s = MinTimeLoggingConnectionClass →
     _mintime (connection_initialize b m2 s).1 = Some m2).
Proof.
  intros s a b m1 m2.
  destruct s as [cls lo lg mt cc q ts clk tk nl tr].
  destruct cls, a, b; repeat split; try done; by intros [=].
Qed.

Lemma X15_witness :
  connection_initialize (LoggerObj []) 50
    (connection_initialize (FileObj []) 100
       (new_connection MinTimeLoggingConnectionClass clock_150ms
          posix_linesep)).1 =
  connection_initialize (LoggerObj []) 50
    (new_connection MinTimeLoggingConnectionClass clock_150ms posix_linesep) ∧
  _mintime
    (connection_initialize (LoggerObj []) 50
       (new_connection MinTimeLoggingConnectionClass clock_150ms
          posix_linesep)).1 = Some 50%Q.
Proof.
  destruct (X15_initialize_again_replaces_target
              (new_connection MinTimeLoggingConnectionClass clock_150ms
                 posix_linesep)
              (FileObj []) (LoggerObj []) 100 50)
    as (Hsame & _ & _ & _ & Hmin).
  split; [exact Hsame|]. apply Hmin. reflexivity.
Defined.
